(** * SORT: local light transport core

    A shallow embedding of the Fresnel models ([bsdf/fresnel.h]), the BXDF
    material nodes ([material/bxdf_node.cpp]), the area light
    ([light/area.cpp]) and the Whitted estimator
    ([integrator/whittedrt.cpp]), with the properties stated about them. *)

From stdpp Require Import base option list strings pretty gmap.
From Stdlib Require Import ZArith Bool String Lia.
From Stdlib Require Import Floats.SpecFloat.

Set Warnings "-register-all".
Local Open Scope Z_scope.

(** ** C++ [float]: IEEE 754 binary32, round to nearest even.

    Values are [spec_float]s (a single NaN, signed zeros and infinities);
    the operations are the Standard Library's specification of IEEE
    arithmetic at 24 bits of precision. *)
Module Float32.

Definition prec : Z := 24.
Definition emax : Z := 128.

Definition float : Type := spec_float.

Definition add : float -> float -> float := SFadd prec emax.
Definition sub : float -> float -> float := SFsub prec emax.
Definition mul : float -> float -> float := SFmul prec emax.
Definition div : float -> float -> float := SFdiv prec emax.
Definition neg : float -> float := SFopp.
Definition sqrt : float -> float := SFsqrt prec emax.

(** [x > y], [x == y]: false as soon as an operand is NaN; [-0 == +0]. *)
Definition gt (x y : float) : bool := SFltb y x.
Definition eqb (x y : float) : bool := SFeqb x y.

(** The float nearest to [m * 2^e]. *)
Definition of_Z2 (m e : Z) : float := binary_normalize prec emax m e false.

Definition zero : float := S754_zero false.
Definition one : float := Eval cbv in of_Z2 1 0.
Definition two : float := Eval cbv in of_Z2 2 0.
Definition half : float := Eval cbv in of_Z2 1 (-1).
Definition quarter : float := Eval cbv in of_Z2 1 (-2).
(** [0.001f], [0.01f] and [0.05f]: the floats nearest to the decimal
    literals, [0x3A83126F], [0x3C23D70A] and [0x3D4CCCCD]. *)
Definition milli : float := S754_finite false 8589935 (-33).
Definition cent : float := S754_finite false 10737418 (-30).
Definition five_cent : float := S754_finite false 13421773 (-28).

End Float32.

Declare Scope f32_scope.
Delimit Scope f32_scope with f32.
Bind Scope f32_scope with Float32.float.
Infix "+" := Float32.add : f32_scope.
Infix "-" := Float32.sub : f32_scope.
Infix "*" := Float32.mul : f32_scope.
Infix "/" := Float32.div : f32_scope.
Notation "- x" := (Float32.neg x) : f32_scope.
Infix ">?" := Float32.gt : f32_scope.
Infix "==?" := Float32.eqb (at level 70) : f32_scope.

(** ** [Spectrum]

    Modelled from the spec: the class is declared in [spectrum/spectrum.h],
    which is not one of the four files embedded here; the spec speaks of
    colours and of scalar or spectral values.  A spectrum is three [float]
    channels; arithmetic acts channel by channel, and a [float] used where
    a [Spectrum] is expected stands for the spectrum with that value in
    every channel (as in [return 0.0f;] from a function returning
    [Spectrum]). *)
Module Spectrum.
Import Float32.

Record t : Type := mk { r : float; g : float; b : float }.

Definition of_float (f : float) : t := mk f f f.
Definition map2 (op : float -> float -> float) (x y : t) : t :=
  mk (op (r x) (r y)) (op (g x) (g y)) (op (b x) (b y)).

Definition add : t -> t -> t := map2 Float32.add.
Definition sub : t -> t -> t := map2 Float32.sub.
Definition mul : t -> t -> t := map2 Float32.mul.
Definition div : t -> t -> t := map2 Float32.div.

(** Default-constructed spectrum. *)
Definition black : t := of_float zero.

Definition IsBlack (x : t) : bool :=
  (r x ==? zero)%f32 && (g x ==? zero)%f32 && (b x ==? zero)%f32.

End Spectrum.

Abbreviation Spectrum := Spectrum.t.
Coercion Spectrum.of_float : Float32.float >-> Spectrum.t.

Declare Scope spec_scope.
Delimit Scope spec_scope with spec.
Bind Scope spec_scope with Spectrum.t.
Infix "+" := Spectrum.add : spec_scope.
Infix "-" := Spectrum.sub : spec_scope.
Infix "*" := Spectrum.mul : spec_scope.
Infix "/" := Spectrum.div : spec_scope.

(** ** Fresnel models ([bsdf/fresnel.h]) *)
Module Fresnel.
Import Float32.

(** [FresnelNo::Evaluate] *)
Definition EvaluateNo (cosi coso : float) : Spectrum := one.

(** [FresnelConductor::Evaluate], for a conductor built from [eta], [k]. *)
Definition EvaluateConductor (eta k : Spectrum) (cosi coso : float) : Spectrum :=
  let abs_cos : float := (if cosi >? zero then cosi else - cosi)%f32 in
  let sq_cos : float := (abs_cos * abs_cos)%f32 in
  let t : Spectrum := (two * eta * abs_cos)%spec in
  let tmp_f : Spectrum := (eta * eta + k * k)%spec in
  let tmp : Spectrum := (tmp_f * sq_cos)%spec in
  let Rparl2 : Spectrum := ((tmp - t + one) / (tmp + t + one))%spec in
  let Rperp2 : Spectrum := ((tmp_f - t + sq_cos) / (tmp_f + t + sq_cos))%spec in
  ((Rparl2 + Rperp2) * half)%spec.

(** [FresnelDielectric::Evaluate], for [FresnelDielectric(ei, et)]. *)
Definition EvaluateDielectric (eta_i eta_t : float) (cosi coso : float) : Spectrum :=
  let cos_i := (if cosi >? zero then cosi else - cosi)%f32 in
  let cos_o := (if coso >? zero then coso else - coso)%f32 in
  let t0 := (eta_t * cos_i)%f32 in
  let t1 := (eta_i * cos_o)%f32 in
  let t2 := (eta_i * cos_i)%f32 in
  let t3 := (eta_t * cos_o)%f32 in
  let Rparl := ((t0 - t1) / (t0 + t1))%f32 in
  let Rparp := ((t2 - t3) / (t2 + t3))%f32 in
  Spectrum.of_float ((Rparl * Rparl + Rparp * Rparp) * half)%f32.

End Fresnel.

(** ** Material nodes producing reflectance terms ([material/bxdf_node.cpp]) *)
Module Material.
Import Float32.

(** An address in the renderer's memory: of an object owned by a node, or
    of one handed out by the per-sample arena ([SORT_MALLOC]). *)
Definition loc : Type := positive.

(** [MAT_NODE_TYPE] is a bitmask. *)
Definition MAT_NODE_TYPE : Type := Z.

(** The value a property resolves to; [bxdf_node.cpp] reads its [x] and
    turns it into a spectrum with [ToSpectrum]. *)
Record MaterialPropertyValue : Type :=
  { x : float; y : float; z : float }.

Definition ToSpectrum (v : MaterialPropertyValue) : Spectrum :=
  Spectrum.mk (x v) (y v) (z v).

(** A property slot: [node] is the connected upstream node (null when the
    slot holds its own constant), [value] that constant. *)
Record MaterialNodeProperty (N : Type) : Type :=
  { node : option N; value : MaterialPropertyValue }.
Arguments node {N} _.
Arguments value {N} _.

(** A string-valued slot ([mf_dist.str], [merlfile.str]). *)
Record MaterialNodePropertyString (N : Type) : Type :=
  { base : MaterialNodeProperty N; str : string }.
Arguments base {N} _.
Arguments str {N} _.

Inductive MicroFacetDistribution : Type :=
| Blinn (rn : float)
| Beckmann (rn : float)
| GGX (rn : float).

Inductive VisTerm : Type :=
| VisNeumann
| VisKelemen
| VisSchlick (rn : float)
| VisSmith (rn : float)
| VisSmithJointApprox (rn : float)
| VisCookTorrance
| VisImplicit.

Inductive Fresnel : Type :=
| FresnelConductor (eta k : Spectrum)
| FresnelDielectric (ei et : float).

Section Nodes.
Set Implicit Arguments.

(** The two bits of [MAT_NODE_TYPE] that [bxdf_node.cpp] tests. *)
Variables MAT_NODE_CONSTANT MAT_NODE_BXDF : MAT_NODE_TYPE.
(** The shading point a [Bsdf] is built for. *)
Variable Intersection : Type.
(** A table of measured reflectance data, and what each file holds. *)
Variable Table : Type.
Variable disk : string -> Table.
(** [clamp( x , lo , hi )] *)
Variable clamp : float -> float -> float -> float.

(** An instantiated reflectance term.  The distribution, visibility and
    Fresnel objects of a microfacet term are allocated for that term
    alone and are kept inside it. *)
Inductive BxdfModel : Type :=
| Lambert (R : Spectrum)
| Merl (data : option Table)
| FourierBxdf (data : option Table)
| OrenNayar (R : Spectrum) (sigma : float)
| MicroFacetReflection (R : Spectrum) (f : Fresnel)
    (d : MicroFacetDistribution) (v : VisTerm)
| MicroFacetRefraction (R : Spectrum) (f : Fresnel)
    (d : MicroFacetDistribution) (v : VisTerm) (in_eta ext_eta : float).

Record Bxdf : Type := { model : BxdfModel; m_weight : Spectrum }.

(** Memory: the reflectance terms by address, and the measured-data
    files read so far, oldest first. *)
Record Memory : Type :=
  { heap : gmap loc Bxdf; loaded : list string }.

(** [Bsdf]: the shading point and the terms added so far, as pointers. *)
Record Bsdf : Type :=
  { intersect : Intersection; m_bxdf : list loc }.

(** The nodes.  [OtherNode] stands for every node kind that is not
    defined in [bxdf_node.cpp] (constants, textures, operators): its
    type tag and the value it outputs at a shading point.  A measured
    node owns its term: [merl] and [fourierBxdf] are the addresses of
    these members. *)
Inductive MaterialNode : Type :=
| OtherNode (ty : MAT_NODE_TYPE)
    (output : Intersection -> MaterialPropertyValue)
| LayeredBxdfNode
    (bxdfs weights : list (MaterialNodeProperty MaterialNode))
| LambertNode (baseColor : MaterialNodeProperty MaterialNode)
| MerlNode (m_post_processed : bool)
    (merlfile : MaterialNodePropertyString MaterialNode) (merl : loc)
| FourierBxdfNode (m_post_processed : bool)
    (fourierBxdfFile : MaterialNodePropertyString MaterialNode)
    (fourierBxdf : loc)
| OrenNayarNode (baseColor roughness : MaterialNodeProperty MaterialNode)
| MicrofacetReflectionNode
    (baseColor : MaterialNodeProperty MaterialNode)
    (mf_dist mf_vis : MaterialNodePropertyString MaterialNode)
    (roughness eta k : MaterialNodeProperty MaterialNode)
| MicrofacetRefractionNode
    (baseColor : MaterialNodeProperty MaterialNode)
    (mf_dist mf_vis : MaterialNodePropertyString MaterialNode)
    (roughness in_ior ext_ior : MaterialNodeProperty MaterialNode).

Abbreviation Property := (MaterialNodeProperty MaterialNode).
Abbreviation PropertyString := (MaterialNodePropertyString MaterialNode).

(** Modelled from the spec: [getNodeType] is declared outside
    [bxdf_node.cpp]; a node that produces reflectance carries the BXDF
    tag. *)
Definition getNodeType (n : MaterialNode) : MAT_NODE_TYPE :=
  match n with
  | OtherNode ty _ => ty
  | _ => MAT_NODE_BXDF
  end.

(** Modelled from the spec: the output of a node as a value.  Only the
    nodes outside [bxdf_node.cpp] have one; a reflectance node has no
    scalar or colour value, and the slot's user reads zeros. *)
Definition GetNodeValue (n : MaterialNode) (bsdf : Bsdf)
  : MaterialPropertyValue :=
  match n with
  | OtherNode _ output => output (intersect bsdf)
  | _ => {| x := zero; y := zero; z := zero |}
  end.

(** Modelled from the spec: [MaterialNodeProperty::GetPropertyValue]
    returns the constant stored in the slot if it is unconnected, and
    the connected node's output at the shading point otherwise. *)
Definition GetPropertyValue (p : Property) (bsdf : Bsdf)
  : MaterialPropertyValue :=
  match node p with
  | Some n => GetNodeValue n bsdf
  | None => value p
  end.

(** Modelled from the spec: [Bsdf::AddBxdf] appends the term. *)
Definition AddBxdf (bsdf : Bsdf) (b : loc) : Bsdf :=
  {| intersect := intersect bsdf; m_bxdf := m_bxdf bsdf ++ [b] |}.

(** [SORT_MALLOC(T)(args)] followed by [t->m_weight = weight]: an address
    the arena has not handed out and no node owns, holding the new
    term. *)
Definition SORT_MALLOC (m : BxdfModel) (weight : Spectrum) (mem : Memory)
  : loc * Memory :=
  let l := fresh (dom (heap mem)) in
  (l, {| heap := <[l := {| model := m; m_weight := weight |}]> (heap mem);
         loaded := loaded mem |}).

(** [b.m_weight = weight] on the term at [l]. *)
Definition set_weight (l : loc) (weight : Spectrum) (mem : Memory) : Memory :=
  {| heap := alter (fun b => {| model := model b; m_weight := weight |}) l (heap mem);
     loaded := loaded mem |}.

(** Modelled from the spec: [LoadData] reads the table of [file] from
    disk into the term at [l]. *)
Definition set_data (m : BxdfModel) (t : Table) : BxdfModel :=
  match m with
  | Merl _ => Merl (Some t)
  | FourierBxdf _ => FourierBxdf (Some t)
  | other => other
  end.

Definition LoadData (l : loc) (file : string) (mem : Memory) : Memory :=
  {| heap := alter (fun b => {| model := set_data (model b) (disk file);
                                m_weight := m_weight b |}) l (heap mem);
     loaded := loaded mem ++ [file] |}.

(** The choice of distribution and visibility term by name, shared by
    the two microfacet nodes. *)
Definition select_dist (name : string) (rn : float) : MicroFacetDistribution :=
  if String.eqb name "Blinn" then Blinn rn
  else if String.eqb name "Beckmann" then Beckmann rn
  else GGX rn.

Definition select_vis (name : string) (rn : float) : VisTerm :=
  if String.eqb name "Neumann" then VisNeumann
  else if String.eqb name "Kelemen" then VisKelemen
  else if String.eqb name "Schlick" then VisSchlick rn
  else if String.eqb name "Smith" then VisSmith rn
  else if String.eqb name "SmithJointApprox" then VisSmithJointApprox rn
  else if String.eqb name "CookTorrance" then VisCookTorrance
  else VisImplicit.

(** A term allocated, weighted and added to the [Bsdf]. *)
Definition add_new (m : BxdfModel) (weight : Spectrum) (s : Bsdf * Memory)
  : Bsdf * Memory :=
  let '(l, mem) := SORT_MALLOC m weight (snd s) in
  (AddBxdf (fst s) l, mem).

(** [UpdateBSDF], by node kind.  In the layered node the loop runs over
    the two arrays [bxdfs] and [weights] in step; a slot's [UpdateBsdf]
    calls the connected node's [UpdateBSDF] and does nothing on an
    empty slot (modelled from the spec: "if a sub-node is connected").
    A node outside [bxdf_node.cpp] adds no term. *)
Fixpoint UpdateBSDF (n : MaterialNode) (weight : Spectrum)
    (s : Bsdf * Memory) {struct n} : Bsdf * Memory :=
  match n with
  | OtherNode _ _ => s
  | LayeredBxdfNode bxdfs weights =>
      (fix loop (bs ws : list Property) (s : Bsdf * Memory) {struct bs}
         : Bsdf * Memory :=
         match bs, ws with
         | bi :: bs', wi :: ws' =>
             let w := ToSpectrum (GetPropertyValue wi (fst s)) in
             loop bs' ws'
               match bi with
               | {| node := Some sub |} => UpdateBSDF sub w s
               | {| node := None |} => s
               end
         | _, _ => s
         end) bxdfs weights s
  | LambertNode baseColor =>
      add_new (Lambert (ToSpectrum (GetPropertyValue baseColor (fst s))))
        weight s
  | MerlNode _ _ merl =>
      (AddBxdf (fst s) merl, set_weight merl weight (snd s))
  | FourierBxdfNode _ _ fourierBxdf =>
      (AddBxdf (fst s) fourierBxdf, set_weight fourierBxdf weight (snd s))
  | OrenNayarNode baseColor roughness =>
      add_new (OrenNayar (ToSpectrum (GetPropertyValue baseColor (fst s)))
                 (x (GetPropertyValue roughness (fst s))))
        weight s
  | MicrofacetReflectionNode baseColor mf_dist mf_vis roughness eta k =>
      let rn := clamp (x (GetPropertyValue roughness (fst s)))
                  milli one in
      let dist := select_dist (str mf_dist) rn in
      let vis := select_vis (str mf_vis) rn in
      let frenel := FresnelConductor
                      (ToSpectrum (GetPropertyValue eta (fst s)))
                      (ToSpectrum (GetPropertyValue k (fst s))) in
      add_new (MicroFacetReflection
                 (ToSpectrum (GetPropertyValue baseColor (fst s)))
                 frenel dist vis)
        weight s
  | MicrofacetRefractionNode baseColor mf_dist mf_vis roughness in_ior ext_ior =>
      let rn := clamp (x (GetPropertyValue roughness (fst s)))
                  five_cent one in
      let dist := select_dist (str mf_dist) rn in
      let vis := select_vis (str mf_vis) rn in
      let in_eta := x (GetPropertyValue in_ior (fst s)) in
      let ext_eta := x (GetPropertyValue ext_ior (fst s)) in
      let frenel := FresnelDielectric in_eta ext_eta in
      add_new (MicroFacetRefraction
                 (ToSpectrum (GetPropertyValue baseColor (fst s)))
                 frenel dist vis in_eta ext_eta)
        weight s
  end.

(** *** Validation *)

(** Modelled from the spec: [MaterialNode::CheckValidation], the rules
    common to all node kinds, is defined outside [bxdf_node.cpp]; it is
    a parameter here. *)
Variable MaterialNode_CheckValidation : MaterialNode -> bool.

(** The property table [m_props] the constructors fill in, by name.
    The names of one node are distinct, so that inserting never meets
    an existing key. *)
Definition indexed (name : string) (ps : list Property)
  : list (string * Property) :=
  imap (fun i p => (name +:+ pretty i, p)) ps.

Definition m_props (n : MaterialNode) : gmap string Property :=
  match n with
  | OtherNode _ _ => ∅
  | LayeredBxdfNode bxdfs weights =>
      list_to_map (indexed "Bxdf" bxdfs ++ indexed "Weight" weights)
  | LambertNode baseColor => <["BaseColor" := baseColor]> ∅
  | MerlNode _ merlfile _ => <["Filename" := base merlfile]> ∅
  | FourierBxdfNode _ fourierBxdfFile _ =>
      <["Filename" := base fourierBxdfFile]> ∅
  | OrenNayarNode baseColor roughness =>
      <["Roughness" := roughness]> (<["BaseColor" := baseColor]> ∅)
  | MicrofacetReflectionNode baseColor mf_dist mf_vis roughness eta k =>
      <["k" := k]> (<["eta" := eta]> (<["Roughness" := roughness]>
        (<["Visibility" := base mf_vis]>
           (<["MicroFacetDistribution" := base mf_dist]>
              (<["BaseColor" := baseColor]> ∅)))))
  | MicrofacetRefractionNode baseColor mf_dist mf_vis roughness in_ior ext_ior =>
      <["ext_ior" := ext_ior]> (<["in_ior" := in_ior]>
        (<["Roughness" := roughness]>
           (<["Visibility" := base mf_vis]>
              (<["MicroFacetDistribution" := base mf_dist]>
                 (<["BaseColor" := baseColor]> ∅)))))
  end.

(** A [for] loop over slots that returns [false] at the first slot whose
    connected node [rejected] holds of, and goes on with [rest] when
    there is none. *)
Fixpoint for_props (rejected : MAT_NODE_TYPE -> bool) (ps : list Property)
    (rest : bool) : bool :=
  match ps with
  | [] => rest
  | prop :: ps' =>
      match node prop with
      | Some sub =>
          let sub_type := getNodeType sub in
          if rejected sub_type then false
          else for_props rejected ps' rest
      | None => for_props rejected ps' rest
      end
  end.

(** [LayeredBxdfNode::CheckValidation] *)
Definition LayeredBxdfNode_CheckValidation (n : MaterialNode)
    (bxdfs weights : list Property) : bool :=
  for_props (fun sub_type => Z.land sub_type MAT_NODE_BXDF =? 0) bxdfs
    (for_props (fun sub_type => Z.land sub_type MAT_NODE_CONSTANT =? 0) weights
       (MaterialNode_CheckValidation n)).

(** [BxdfNode::CheckValidation] *)
Definition BxdfNode_CheckValidation (n : MaterialNode) : bool :=
  for_props (fun sub_type => negb (Z.land sub_type MAT_NODE_BXDF =? 0))
    (snd <$> map_to_list (m_props n))
    (MaterialNode_CheckValidation n).

(** The virtual call [n->CheckValidation()]. *)
Definition CheckValidation (n : MaterialNode) : bool :=
  match n with
  | OtherNode _ _ => MaterialNode_CheckValidation n
  | LayeredBxdfNode bxdfs weights =>
      LayeredBxdfNode_CheckValidation n bxdfs weights
  | _ => BxdfNode_CheckValidation n
  end.

(** *** Measured data *)

(** [s.empty()] *)
Definition empty (s : string) : bool :=
  match s with EmptyString => true | String _ _ => false end.

(** [MerlNode::PostProcess] and [FourierBxdfNode::PostProcess].  Neither
    assigns a member of the node; the memory is what they change. *)
Definition MerlNode_PostProcess (m_post_processed : bool)
    (merlfile : PropertyString) (merl : loc) (mem : Memory) : Memory :=
  if m_post_processed then mem
  else if negb (empty (str merlfile)) then
    LoadData merl (str merlfile) mem
  else mem.

Definition FourierBxdfNode_PostProcess (m_post_processed : bool)
    (fourierBxdfFile : PropertyString) (fourierBxdf : loc) (mem : Memory)
  : Memory :=
  if m_post_processed then mem
  else if negb (empty (str fourierBxdfFile)) then
    LoadData fourierBxdf (str fourierBxdfFile) mem
  else mem.

(** The virtual call [n->PostProcess()] on a measured-data node. *)
Definition PostProcess (n : MaterialNode) (mem : Memory) : Memory :=
  match n with
  | MerlNode m_post_processed merlfile merl =>
      MerlNode_PostProcess m_post_processed merlfile merl mem
  | FourierBxdfNode m_post_processed fourierBxdfFile fourierBxdf =>
      FourierBxdfNode_PostProcess m_post_processed fourierBxdfFile
        fourierBxdf mem
  | _ => mem
  end.

End Nodes.
Unset Implicit Arguments.

Arguments Lambert {Table} R.
Arguments OrenNayar {Table} R sigma.
Arguments MicroFacetReflection {Table} R f d v.
Arguments MicroFacetRefraction {Table} R f d v in_eta ext_eta.
End Material.

(** ** Area light ([light/area.cpp]) and Whitted estimator
    ([integrator/whittedrt.cpp]) *)
Module Render.
Import Float32.

Section Geometry.
Set Implicit Arguments.

(** The geometry types and helpers, and the constants, come from headers
    outside the four files; they are parameters. *)
Variables Point Vector LightSample : Type.
(** [p - q] on points, [v.Length()], [-v], [Dot], [SatDot]. *)
Variable psub : Point -> Point -> Vector.
Variable Length : Vector -> float.
Variable vneg : Vector -> Vector.
Variables Dot SatDot : Vector -> Vector -> float.
(** [UniformHemispherePdf()] and [TWO_PI]. *)
Variables UniformHemispherePdf TWO_PI : float.
(** [Spectrum::GetIntensity], a scalar. *)
Variable GetIntensity : Spectrum -> float.

(** [Ray( ori , dir , depth , fmin , fmax )] *)
Record Ray : Type :=
  { m_Ori : Point; m_Dir : Vector; m_Depth : Z;
    m_fMin : float; m_fMax : float }.

Record Intersection : Type := { intersect : Point; normal : Vector }.

(** The visibility tester: the shadow ray it will test. *)
Record Visibility : Type := { ray : Ray }.

(** The pointer arguments of [sample_l] that may be null: [None] is the
    null pointer, [Some v] a pointer to a [float] holding [v]. *)
Record Outputs : Type :=
  { distance : option float; pdfW : option float;
    emissionPdf : option float; cosAtLight : option float }.

(** [Shape], as the area light uses it: sampling a point on the shape
    from a point of the scene gives the point, the direction to it, the
    normal there and the solid-angle pdf, which the shape stores through
    [pdfW] when that pointer is not null. *)
Record Shape : Type :=
  { Shape_sample_l : LightSample -> Point -> Point * Vector * Vector * float;
    Shape_Pdf : Point -> Vector -> float;
    SurfaceArea : float }.

(** [AreaLight]; [shape] is asserted non-null by every method. *)
Record AreaLight : Type := { shape : Shape; intensity : Spectrum }.

(** [AreaLight::sample_l], the variant sampling an incident direction.
    The result is the radiance returned and the contents of
    [dirToLight], of the pointer arguments and of [visibility] on
    return. *)
Definition sample_l (light : AreaLight) (intersect_ : Intersection)
    (ls : LightSample) (dirToLight : Vector) (out : Outputs)
    (visibility : Visibility)
  : Spectrum * Vector * Outputs * Visibility :=
  (* sample a point from light *)
  let '(ps, dirToLight, normal_, pdf) :=
    Shape_sample_l (shape light) ls (intersect intersect_) in
  let out := {| distance := distance out;
                pdfW := (fun _ => pdf) <$> pdfW out;
                emissionPdf := emissionPdf out;
                cosAtLight := cosAtLight out |} in
  (* get the delta *)
  let dlt := psub ps (intersect intersect_) in
  let len := Length dlt in
  (* return if pdf is zero *)
  if match pdfW out with Some v => (v ==? zero)%f32 | None => false end
  then (Spectrum.of_float zero, dirToLight, out, visibility)
  else
    let out := {| distance := distance out; pdfW := pdfW out;
                  emissionPdf := emissionPdf out;
                  cosAtLight := (fun _ => Dot (vneg dirToLight) normal_)
                                  <$> cosAtLight out |} in
    let out := {| distance := (fun _ => len) <$> distance out;
                  pdfW := pdfW out;
                  emissionPdf := emissionPdf out;
                  cosAtLight := cosAtLight out |} in
    let out := {| distance := distance out; pdfW := pdfW out;
                  emissionPdf :=
                    (fun _ => UniformHemispherePdf / SurfaceArea (shape light))%f32
                      <$> emissionPdf out;
                  cosAtLight := cosAtLight out |} in
    (* setup visibility tester *)
    let delta := cent in
    let visibility :=
      {| ray := {| m_Ori := intersect intersect_; m_Dir := dirToLight;
                   m_Depth := 0; m_fMin := delta;
                   m_fMax := (len - delta)%f32 |} |} in
    (intensity light, dirToLight, out, visibility).

(** [AreaLight::Pdf] *)
Definition Pdf (light : AreaLight) (p : Point) (wi : Vector) : float :=
  Shape_Pdf (shape light) p wi.

(** [AreaLight::Power] *)
Definition Power (light : AreaLight) : Spectrum :=
  Spectrum.of_float
    (SurfaceArea (shape light) * GetIntensity (intensity light) * TWO_PI)%f32.

(** [AreaLight::Le] at a point of the light; the two pointer arguments
    are returned with what they hold. *)
Definition Le (light : AreaLight) (intersect_ : Intersection) (wo : Vector)
    (directPdfA emissionPdf_ : option float)
  : Spectrum * option float * option float :=
  let cos := SatDot wo (normal intersect_) in
  if (cos ==? zero)%f32 then (Spectrum.of_float zero, directPdfA, emissionPdf_)
  else
    (intensity light,
     (fun _ => one / SurfaceArea (shape light))%f32 <$> directPdfA,
     (fun _ => UniformHemispherePdf / SurfaceArea (shape light))%f32
       <$> emissionPdf_).

(** *** The estimator *)

(** A light, as [WhittedRT::Li] uses one: [IsDelta()], and the call
    [sample_l( ip , ls , lightDir , 0 , &pdf , 0 , 0 , visibility )],
    which gives the radiance and what [lightDir], [pdf] and
    [visibility] hold on return. *)
Record Light : Type :=
  { IsDelta : bool;
    Light_sample_l : Intersection -> LightSample -> Visibility ->
                     Spectrum * Vector * float * Visibility }.

(** The reflectance aggregate at a hit point, [f] its bidirectional
    reflectance. *)
Variable Bsdf : Type.
Variable Bsdf_f : Bsdf -> Vector -> Vector -> Spectrum.

(** The scene services: intersection, environment radiance, the lights,
    the material's [GetBsdf] at a hit and the occlusion test behind
    [Visibility::IsVisible]. *)
Record Scene : Type :=
  { GetIntersect : Ray -> option Intersection;
    Scene_Le : Ray -> Spectrum;
    GetLights : list Light;
    GetBsdf : Intersection -> Bsdf;
    Visibility_new : Visibility;
    IsVisible : Visibility -> bool }.

Record PixelSample : Type := { light_sample : nat -> LightSample }.

Record WhittedRT : Type := { scene : Scene; max_recursive_depth : Z }.

(** The [while] loop of [WhittedRT::Li] over the lights from [it] on,
    with the radiance [t] accumulated so far. *)
Fixpoint Li_lights (w : WhittedRT) (r : Ray) (ps : PixelSample)
    (ip : Intersection) (bsdf : Bsdf) (it : list Light) (t : Spectrum)
    (visibility : Visibility) : Spectrum :=
  match it with
  | [] => t
  | light :: it' =>
      (* only delta light is evaluated *)
      if IsDelta light then
        let '(ld, lightDir, pdf, visibility) :=
          Light_sample_l light ip (light_sample ps 0%nat) visibility in
        if Spectrum.IsBlack ld then
          Li_lights w r ps ip bsdf it' t visibility
        else
          let f := Bsdf_f bsdf (vneg (m_Dir r)) lightDir in
          if Spectrum.IsBlack f then
            Li_lights w r ps ip bsdf it' t visibility
          else
            let visible := IsVisible (scene w) visibility in
            if visible then
              Li_lights w r ps ip bsdf it'
                (t + ld * f * SatDot lightDir (normal ip) / pdf)%spec
                visibility
            else Li_lights w r ps ip bsdf it' t visibility
      else Li_lights w r ps ip bsdf it' t visibility
  end.

(** [WhittedRT::Li] *)
Definition Li (w : WhittedRT) (r : Ray) (ps : PixelSample) : Spectrum :=
  if m_Depth r >? max_recursive_depth w then Spectrum.of_float zero
  else
    match GetIntersect (scene w) r with
    | None => Scene_Le (scene w) r
    | Some ip =>
        let t := Spectrum.black in
        let bsdf := GetBsdf (scene w) ip in
        let visibility := Visibility_new (scene w) in
        Li_lights w r ps ip bsdf (GetLights (scene w)) t visibility
    end.

End Geometry.
Unset Implicit Arguments.
End Render.

(** ** The other methods of the area light ([light/area.cpp]) *)
Module Emission.
Import Float32 Render.

Section Geometry.
Set Implicit Arguments.

Variables Point Vector LightSample : Type.
Variable vneg : Vector -> Vector.
Variable SatDot : Vector -> Vector -> float.
Variable UniformHemispherePdf : float.

(** Two more services of [Shape], parameters like the geometry:
    [shape->sample_l( ls , r , n , pdfW )] gives the ray leaving the shape,
    the normal at its origin and the pdf of its direction, which the shape
    stores through [pdfW] when that pointer is not null;
    [shape->GetIntersect( ray , intersect )] gives the hit, if any, which
    the shape stores through [intersect] when that pointer is not null. *)
Variable Shape_sample_ray :
  Shape Point Vector LightSample -> LightSample -> Ray Point Vector ->
  Ray Point Vector * Vector * float.
Variable Shape_GetIntersect :
  Shape Point Vector LightSample -> Ray Point Vector ->
  option (Intersection Point Vector).

(** [AreaLight::sample_l], the variant sampling a ray leaving the light.
    The result is the radiance returned and the contents of [r] and of the
    three pointer arguments on return ([None] is the null pointer). *)
Definition sample_l_ray (light : AreaLight Point Vector LightSample)
    (ls : LightSample) (r : Ray Point Vector)
    (pdfW pdfA cosAtLight : option float)
  : Spectrum * Ray Point Vector * option float * option float * option float :=
  let '(r, n, pdf) := Shape_sample_ray (shape light) ls r in
  let pdfW := (fun _ => pdf) <$> pdfW in
  let pdfA := (fun _ => one / SurfaceArea (shape light))%f32 <$> pdfA in
  let cosAtLight := (fun _ => SatDot (m_Dir r) n) <$> cosAtLight in
  (* to avoid self intersection *)
  let r := {| m_Ori := m_Ori r; m_Dir := m_Dir r; m_Depth := m_Depth r;
              m_fMin := cent; m_fMax := m_fMax r |} in
  (intensity light, r, pdfW, pdfA, cosAtLight).

(** [AreaLight::Le] along a ray.  The result is the value returned and the
    contents of [intersect] (a pointer, [None] when null) and of
    [radiance] on return. *)
Definition Le_ray (light : AreaLight Point Vector LightSample)
    (ray_ : Ray Point Vector) (intersect_ : option (Intersection Point Vector))
    (radiance : Spectrum)
  : bool * option (Intersection Point Vector) * Spectrum :=
  (* get intersect *)
  match Shape_GetIntersect (shape light) ray_ with
  | Some hit_ =>
      match intersect_ with
      | Some _ =>
          (true, Some hit_,
           (Le SatDot UniformHemispherePdf light hit_ (vneg (m_Dir ray_))
              None None).1.1)
      | None => (true, None, radiance)
      end
  | None => (false, intersect_, radiance)
  end.

End Geometry.
Unset Implicit Arguments.
End Emission.

(** * Properties *)

(** ** Fresnel models *)
Module FresnelFacts.
Import Float32 Fresnel.
Local Open Scope f32_scope.

(** The ternary [(c > 0.0f) ? c : (-c)] both models start with. *)
Definition cabs (c : float) : float := if c >? zero then c else - c.

Definition is_zero (c : float) : bool :=
  match c with S754_zero _ => true | _ => false end.

(** One channel of the conductor formula, from the value of the ternary. *)
Definition conductor_channel (e k a : float) : float :=
  let sq := a * a in
  let t := two * e * a in
  let tmp_f := e * e + k * k in
  let tmp := tmp_f * sq in
  ((tmp - t + one) / (tmp + t + one)
   + (tmp_f - t + sq) / (tmp_f + t + sq)) * half.

(** The dielectric formula, from the values of the two ternaries. *)
Definition dielectric_value (eta_i eta_t ci co : float) : float :=
  let t0 := eta_t * ci in
  let t1 := eta_i * co in
  let t2 := eta_i * ci in
  let t3 := eta_t * co in
  let Rparl := (t0 - t1) / (t0 + t1) in
  let Rparp := (t2 - t3) / (t2 + t3) in
  (Rparl * Rparl + Rparp * Rparp) * half.

(** Away from zero the ternary is the absolute value, and negating its
    argument changes nothing. *)
Lemma cabs_neg (c : float) : is_zero c = false -> cabs (- c) = cabs c.
Proof. destruct c as [s|s| |s m e]; try destruct s; cbn; congruence. Qed.

(** At zero it flips the sign: [+0] gives [-0] and [-0] gives [+0]. *)
Lemma cabs_zero (s : bool) : cabs (S754_zero s) = S754_zero (negb s).
Proof. reflexivity. Qed.

Lemma EvaluateConductor_channels eta k cosi coso :
  EvaluateConductor eta k cosi coso =
  Spectrum.mk
    (conductor_channel (Spectrum.r eta) (Spectrum.r k) (cabs cosi))
    (conductor_channel (Spectrum.g eta) (Spectrum.g k) (cabs cosi))
    (conductor_channel (Spectrum.b eta) (Spectrum.b k) (cabs cosi)).
Proof. reflexivity. Qed.

Lemma EvaluateDielectric_value eta_i eta_t cosi coso :
  EvaluateDielectric eta_i eta_t cosi coso =
  Spectrum.of_float (dielectric_value eta_i eta_t (cabs cosi) (cabs coso)).
Proof. reflexivity. Qed.

(** The sign of a zero cosine does not reach the conductor's result: the
    products with it are zeros or NaN, and they meet [+ 1] or a square. *)
Lemma conductor_channel_zero e k s :
  conductor_channel e k (S754_zero s)
  = conductor_channel e k (S754_zero (negb s)).
Proof.
  unfold conductor_channel.
  generalize (two * e), (e * e + k * k). intros f g.
  destruct f as [sf|sf| |sf mf ef], g as [sg|sg| |sg mg eg], s;
    try destruct sf; try destruct sg; reflexivity.
Qed.

(** Nor the dielectric's: a zero [t0] leaves [(t0 - t1) / (t0 + t1)] to
    [t1] alone, whatever its sign. *)
Lemma ratio_zero_l (u : float) (s : bool) :
  (S754_zero s - u) / (S754_zero s + u)
  = (S754_zero (negb s) - u) / (S754_zero (negb s) + u).
Proof. destruct u as [su|su| |su mu eu], s; try destruct su; reflexivity. Qed.

Lemma ratio_zero_r (u : float) (s : bool) :
  (u - S754_zero s) / (u + S754_zero s)
  = (u - S754_zero (negb s)) / (u + S754_zero (negb s)).
Proof. destruct u as [su|su| |su mu eu], s; try destruct su; reflexivity. Qed.

Lemma mul_zero_cases (u : float) (s : bool) :
  (u * S754_zero s = S754_nan /\ u * S754_zero (negb s) = S754_nan)
  \/ exists s', u * S754_zero s = S754_zero s'
                /\ u * S754_zero (negb s) = S754_zero (negb s').
Proof.
  destruct u as [su|su| |su mu eu]; cbn; eauto;
    right; exists (xorb su s); destruct su, s; auto.
Qed.

Lemma ratio_nan_l (u : float) : (S754_nan - u) / (S754_nan + u) = S754_nan.
Proof. destruct u; reflexivity. Qed.

Lemma ratio_nan_r (u : float) : (u - S754_nan) / (u + S754_nan) = S754_nan.
Proof. destruct u; reflexivity. Qed.

Lemma dielectric_value_zero_i eta_i eta_t co s :
  dielectric_value eta_i eta_t (S754_zero s) co
  = dielectric_value eta_i eta_t (S754_zero (negb s)) co.
Proof.
  unfold dielectric_value.
  generalize (eta_i * co), (eta_t * co). intros t1 t3.
  destruct (mul_zero_cases eta_t s) as [[-> ->]|(s0 & -> & ->)];
    destruct (mul_zero_cases eta_i s) as [[-> ->]|(s2 & -> & ->)];
    rewrite ?ratio_nan_l, ?(ratio_zero_l t1 s0), ?(ratio_zero_l t3 s2);
    reflexivity.
Qed.

Lemma dielectric_value_zero_o eta_i eta_t ci s :
  dielectric_value eta_i eta_t ci (S754_zero s)
  = dielectric_value eta_i eta_t ci (S754_zero (negb s)).
Proof.
  unfold dielectric_value.
  generalize (eta_t * ci), (eta_i * ci). intros t0 t2.
  destruct (mul_zero_cases eta_t s) as [[-> ->]|(s3 & -> & ->)];
    destruct (mul_zero_cases eta_i s) as [[-> ->]|(s1 & -> & ->)];
    rewrite ?ratio_nan_r, ?(ratio_zero_r t0 s1), ?(ratio_zero_r t2 s3);
    reflexivity.
Qed.

(** What the two formulas see of a cosine and of its opposite. *)
Lemma cabs_neg_cases (c : float) :
  cabs (- c) = cabs c
  \/ exists s, cabs c = S754_zero s /\ cabs (- c) = S754_zero (negb s).
Proof.
  destruct c as [s|s| |s m e]; try (left; apply cabs_neg; reflexivity).
  right. exists (negb s). split; reflexivity.
Qed.

(** C9: the conductor and dielectric [Evaluate] give the same spectrum
    when either input cosine is negated, for every parameter and every
    float cosine, zeros, infinities and NaN included. *)
Theorem C9_Evaluate_sign_invariant :
  forall (eta k : Spectrum) (eta_i eta_t cosi coso : float),
    EvaluateConductor eta k (- cosi) coso = EvaluateConductor eta k cosi coso
    /\ EvaluateConductor eta k cosi (- coso) = EvaluateConductor eta k cosi coso
    /\ EvaluateDielectric eta_i eta_t (- cosi) coso
       = EvaluateDielectric eta_i eta_t cosi coso
    /\ EvaluateDielectric eta_i eta_t cosi (- coso)
       = EvaluateDielectric eta_i eta_t cosi coso.
Proof.
  intros eta k eta_i eta_t cosi coso.
  rewrite !EvaluateConductor_channels, !EvaluateDielectric_value.
  split; [|split; [|split]].
  - destruct (cabs_neg_cases cosi) as [->|(s & -> & ->)]; [reflexivity|].
    now rewrite <- !conductor_channel_zero.
  - reflexivity.
  - destruct (cabs_neg_cases cosi) as [->|(s & -> & ->)]; [reflexivity|].
    now rewrite <- dielectric_value_zero_i.
  - destruct (cabs_neg_cases coso) as [->|(s & -> & ->)]; [reflexivity|].
    now rewrite <- dielectric_value_zero_o.
Qed.

(** C10: the conductor's [Evaluate] does not depend on its second
    argument, the exitant cosine. *)
Theorem C10_conductor_ignores_coso :
  forall (eta k : Spectrum) (cosi coso1 coso2 : float),
    EvaluateConductor eta k cosi coso1 = EvaluateConductor eta k cosi coso2.
Proof. intros. rewrite !EvaluateConductor_channels. reflexivity. Qed.

End FresnelFacts.

(** ** Material nodes *)
Module MaterialFacts.
Import Float32 Material.


(** A property holding the constant [v] in its three channels, and one
    connected to the node [n]. *)
Definition constant {I : Type} (v : float) : MaterialNodeProperty (MaterialNode I) :=
  {| node := None; value := {| x := v; y := v; z := v |} |}.

Definition connected {I : Type} (n : MaterialNode I)
  : MaterialNodeProperty (MaterialNode I) :=
  {| node := Some n; value := {| x := zero; y := zero; z := zero |} |}.

(** A [clamp] to run the examples with. *)
Definition clamp_to (v lo hi : float) : float :=
  if (lo >? v)%f32 then lo else if (v >? hi)%f32 then hi else v.

(** The Merl node owning the term at address 1, weighted 1 so far, and the
    memory holding that term. *)
Definition merl_node : MaterialNode unit :=
  MerlNode true {| base := constant zero; str := "gold.binary" |} 1%positive.

Definition no_memory : Memory unit := {| heap := ∅; loaded := [] |}.

Definition merl_memory : Memory unit :=
  {| heap := {[ 1%positive := {| model := Merl (Some tt);
                                 m_weight := Spectrum.of_float one |} ]};
     loaded := [] |}.

Section Facts.
Set Implicit Arguments.

Variables MAT_NODE_CONSTANT MAT_NODE_BXDF : MAT_NODE_TYPE.
Variables Intersection Table : Type.
Variable MaterialNode_CheckValidation : MaterialNode Intersection -> bool.
Variable clamp : float -> float -> float -> float.
Variable disk : string -> Table.

Abbreviation State := (Bsdf Intersection * Memory Table)%type.

(** A node is BXDF-typed, or CONSTANT-typed, when its type tag has the bit. *)
Definition BXDF_typed (n : MaterialNode Intersection) : Prop :=
  Z.land (getNodeType MAT_NODE_BXDF n) MAT_NODE_BXDF <> 0.

Definition CONSTANT_typed (n : MaterialNode Intersection) : Prop :=
  Z.land (getNodeType MAT_NODE_BXDF n) MAT_NODE_CONSTANT <> 0.

(** The wiring a node must not have: in a layered node a [Bxdf{i}] slot
    connected to a node that is not BXDF-typed or a [Weight{i}] slot
    connected to one that is not CONSTANT-typed; in any other node of
    [bxdf_node.cpp] a property connected to a BXDF-typed node. *)
Definition wiring_violation (n : MaterialNode Intersection) : Prop :=
  match n with
  | OtherNode _ _ => False
  | LayeredBxdfNode bxdfs weights =>
      (exists i p sub,
          bxdfs !! i = Some p /\ node p = Some sub /\ ~ BXDF_typed sub)
      \/ (exists i p sub,
             weights !! i = Some p /\ node p = Some sub /\ ~ CONSTANT_typed sub)
  | _ =>
      exists name p sub,
        m_props n !! name = Some p /\ node p = Some sub /\ BXDF_typed sub
  end.

(** The slot loop of the layered node, on its own. *)
Fixpoint UpdateBSDF_slots
    (bs ws : list (MaterialNodeProperty (MaterialNode Intersection)))
    (s : State) : State :=
  match bs, ws with
  | bi :: bs', wi :: ws' =>
      let w := ToSpectrum (GetPropertyValue wi (fst s)) in
      UpdateBSDF_slots bs' ws'
        match node bi with
        | Some sub => UpdateBSDF clamp sub w s
        | None => s
        end
  | _, _ => s
  end.

(** A layered node of [S m] slot pairs: the first holds [sub] with the
    constant weight [w], the others are empty. *)
Definition one_layer (sub : MaterialNode Intersection) (w : float) (m : nat)
  : MaterialNode Intersection :=
  LayeredBxdfNode (connected sub :: replicate m (constant zero))
    (constant w :: replicate m (constant one)).

(** The memory after a term [b] was allocated in [mem]. *)
Definition allocated (b : Bxdf Table) (mem : Memory Table) : Memory Table :=
  {| heap := <[fresh (dom (heap mem)) := b]> (heap mem);
     loaded := loaded mem |}.

(** The property claimed of [UpdateBSDF] on a node: every object in memory
    before the call is the same after it, and the call appends one pointer,
    to an object that was not in memory before. *)
Definition appends_fresh_term (n : MaterialNode Intersection)
    (weight : Spectrum) (s : State) : Prop :=
  let s' := UpdateBSDF clamp n weight s in
  (forall l b, heap (snd s) !! l = Some b -> heap (snd s') !! l = Some b)
  /\ exists l, m_bxdf (fst s') = m_bxdf (fst s) ++ [l]
               /\ heap (snd s) !! l = None
               /\ is_Some (heap (snd s') !! l).

(** The nodes that build their term from resolved values. *)
Definition analytic (n : MaterialNode Intersection) : bool :=
  match n with
  | LambertNode _ | OrenNayarNode _ _
  | MicrofacetReflectionNode _ _ _ _ _ _
  | MicrofacetRefractionNode _ _ _ _ _ _ => true
  | _ => false
  end.

Unset Implicit Arguments.

(** *** Validation *)

Lemma for_props_accepts rejected ps rest :
  for_props MAT_NODE_BXDF (Intersection := Intersection) rejected ps rest = true ->
  rest = true.
Proof.
  induction ps as [|p ps IH]; simpl; [tauto|].
  destruct (node p) as [sub|]; [|exact IH].
  destruct (rejected _); [discriminate|exact IH].
Qed.

Lemma for_props_rejects rejected (ps : list (MaterialNodeProperty (MaterialNode Intersection)))
    rest p sub :
  p ∈ ps -> node p = Some sub ->
  rejected (getNodeType MAT_NODE_BXDF sub) = true ->
  for_props MAT_NODE_BXDF rejected ps rest = false.
Proof.
  intros Hin Hnode Hrej.
  induction Hin as [p ps|p q ps Hin IH]; simpl.
  - rewrite Hnode, Hrej. reflexivity.
  - specialize (IH Hnode).
    destruct (node q) as [sub'|]; [|exact IH].
    destruct (rejected (getNodeType MAT_NODE_BXDF sub')); [reflexivity|exact IH].
Qed.

Lemma for_props_rest_false rejected
    (ps : list (MaterialNodeProperty (MaterialNode Intersection))) :
  for_props MAT_NODE_BXDF rejected ps false = false.
Proof.
  destruct (for_props MAT_NODE_BXDF rejected ps false) eqn:E; [|reflexivity].
  apply for_props_accepts in E. discriminate.
Qed.

Lemma BxdfNode_CheckValidation_rejects (n : MaterialNode Intersection) name p sub :
  m_props n !! name = Some p -> node p = Some sub -> BXDF_typed sub ->
  BxdfNode_CheckValidation MAT_NODE_BXDF MaterialNode_CheckValidation n = false.
Proof.
  intros Hp Hnode Hty. unfold BxdfNode_CheckValidation.
  apply for_props_rejects with (p := p) (sub := sub); [|exact Hnode|].
  - apply elem_of_map_to_list in Hp.
    apply (list_elem_of_fmap_2 snd) in Hp. exact Hp.
  - apply negb_true_iff, Z.eqb_neq. exact Hty.
Qed.

(** C5: a node whose wiring breaks the acceptance rule is refused. *)
Theorem C5_CheckValidation_rejects (n : MaterialNode Intersection) :
  wiring_violation n ->
  CheckValidation MAT_NODE_CONSTANT MAT_NODE_BXDF MaterialNode_CheckValidation n
  = false.
Proof.
  destruct n; simpl;
    try (intros (name & p & sub & Hp & Hnode & Hty);
         apply BxdfNode_CheckValidation_rejects
           with (name := name) (p := p) (sub := sub); assumption).
  - tauto.
  - unfold LayeredBxdfNode_CheckValidation.
    intros [(i & p & sub & Hp & Hnode & Hty)|(i & p & sub & Hp & Hnode & Hty)].
    + apply for_props_rejects with (p := p) (sub := sub); [|exact Hnode|].
      * eapply list_elem_of_lookup_2, Hp.
      * apply Z.eqb_eq. unfold BXDF_typed in Hty. lia.
    + rewrite (for_props_rejects _ weights _ p sub);
        [apply for_props_rest_false
        |eapply list_elem_of_lookup_2, Hp
        |exact Hnode
        |apply Z.eqb_eq; unfold CONSTANT_typed in Hty; lia].
Qed.

(** *** Building the reflectance aggregate *)

Lemma UpdateBSDF_Layered bs ws (weight : Spectrum) (s : State) :
  UpdateBSDF clamp (LayeredBxdfNode bs ws) weight s = UpdateBSDF_slots bs ws s.
Proof.
  revert ws s. induction bs as [|[[sub|] v] bs IH]; intros [|wi ws] s;
    try reflexivity; simpl; rewrite <- IH; reflexivity.
Qed.

(** The weight handed to the layered node does not reach its result. *)
Lemma UpdateBSDF_Layered_weight bs ws (W1 W2 : Spectrum) (s : State) :
  UpdateBSDF clamp (LayeredBxdfNode bs ws) W1 s
  = UpdateBSDF clamp (LayeredBxdfNode bs ws) W2 s.
Proof. rewrite !UpdateBSDF_Layered. reflexivity. Qed.

(** Empty sub-node slots add nothing. *)
Lemma UpdateBSDF_slots_empty (m : nat) (v w : float) (s : State) :
  UpdateBSDF_slots (replicate m (constant v)) (replicate m (constant w)) s = s.
Proof. induction m as [|m IH]; simpl; [reflexivity|exact IH]. Qed.

Lemma UpdateBSDF_one_layer sub (w : float) (m : nat) (W : Spectrum) (s : State) :
  UpdateBSDF clamp (one_layer sub w m) W s
  = UpdateBSDF clamp sub (Spectrum.of_float w) s.
Proof.
  unfold one_layer. rewrite UpdateBSDF_Layered. simpl.
  apply UpdateBSDF_slots_empty.
Qed.

(** C1, as the code has it: a layered node with one populated pair, a
    Lambert node of colour [c] under the weight [w], called with the weight
    [W], appends exactly one term, and its weight is [w], whatever [W] is;
    the same when the node is itself a layer of weight 1/2 under a layered
    root called with weight 1.  At [W = w = 1/2] the weight [W * w] would be
    1/4. *)
Theorem C1_layered_weight_not_propagated :
  forall (ip : Intersection) (mem : Memory Table) (m : nat) (c w : float)
         (W : Spectrum),
    let lambert := LambertNode (constant c) in
    let term weight := {| model := Lambert (Spectrum.of_float c);
                          m_weight := weight |} in
    let bsdf := {| intersect := ip; m_bxdf := [] |} in
    let one_term weight :=
      ({| intersect := ip; m_bxdf := [fresh (dom (heap mem))] |},
       allocated (term weight) mem) in
    UpdateBSDF clamp (one_layer lambert w m) W (bsdf, mem)
    = one_term (Spectrum.of_float w)
    /\ UpdateBSDF clamp (one_layer (one_layer lambert half m) half m)
         (Spectrum.of_float one) (bsdf, mem)
       = one_term (Spectrum.of_float half)
    /\ one_term (Spectrum.of_float half)
       <> one_term (Spectrum.of_float half * Spectrum.of_float half)%spec.
Proof.
  intros ip mem m c w W lambert term bsdf one_term.
  rewrite !UpdateBSDF_one_layer.
  split; [reflexivity|]. split; [reflexivity|].
  intros H.
  assert (E : heap (snd (one_term (Spectrum.of_float half)))
              !! fresh (dom (heap mem))
              = heap (snd (one_term (Spectrum.of_float half * Spectrum.of_float half)%spec))
                  !! fresh (dom (heap mem)))
    by (rewrite H; reflexivity).
  simpl in E. rewrite !lookup_insert_eq in E. discriminate E.
Qed.

Lemma add_new_fresh (b : BxdfModel Table) (weight : Spectrum) (s : State) :
  let s' := add_new b weight s in
  (forall l o, heap (snd s) !! l = Some o -> heap (snd s') !! l = Some o)
  /\ exists l, m_bxdf (fst s') = m_bxdf (fst s) ++ [l]
               /\ heap (snd s) !! l = None
               /\ is_Some (heap (snd s') !! l).
Proof.
  destruct s as [bsdf mem]. simpl.
  assert (Hfresh : heap mem !! fresh (dom (heap mem)) = None)
    by apply not_elem_of_dom, is_fresh.
  split.
  - intros l o Hl. rewrite lookup_insert_ne; [exact Hl|].
    intros E. subst l. congruence.
  - exists (fresh (dom (heap mem))). split; [reflexivity|].
    split; [exact Hfresh|]. rewrite lookup_insert_eq. eauto.
Qed.

(** The analytic nodes do what is claimed of every node: each leaves what
    is in memory as it was and appends one freshly allocated term.  The two
    measured nodes unfold to a write of the weight and the node's own
    address. *)
Theorem analytic_nodes_append_fresh_terms :
  forall (weight : Spectrum) (s : State),
    (forall n, analytic n = true -> appends_fresh_term n weight s)
    /\ (forall flag file l,
           UpdateBSDF clamp (MerlNode flag file l) weight s
           = (AddBxdf (fst s) l, set_weight l weight (snd s))
           /\ UpdateBSDF clamp (FourierBxdfNode flag file l) weight s
              = (AddBxdf (fst s) l, set_weight l weight (snd s))).
Proof.
  intros weight s. split.
  - intros n Hn. unfold appends_fresh_term.
    destruct n; try discriminate Hn; apply add_new_fresh.
  - intros flag file l. split; reflexivity.
Qed.

(** C2, as the code has it: on a Merl or a Fourier node whose term is in
    memory, [UpdateBSDF] appends the address of the term the node owns and
    replaces the weight of that term with the incoming one, where the
    other leaf nodes allocate a term per call: the term appended is not
    fresh, the node's state is written during shading, and the property
    claimed fails. *)
Theorem C2_measured_node_shares_its_term :
  forall (n : MaterialNode Intersection) (flag : bool)
         (file : MaterialNodePropertyString (MaterialNode Intersection))
         (l : loc) (b : Bxdf Table) (weight : Spectrum)
         (bsdf : Bsdf Intersection) (mem : Memory Table),
    n = MerlNode flag file l \/ n = FourierBxdfNode flag file l ->
    heap mem !! l = Some b ->
    let s' := UpdateBSDF clamp n weight (bsdf, mem) in
    m_bxdf (fst s') = m_bxdf bsdf ++ [l]
    /\ heap (snd s') !! l = Some {| model := model b; m_weight := weight |}
    /\ ~ appends_fresh_term n weight (bsdf, mem).
Proof.
  intros n flag file l b weight bsdf mem Hn Hb s'.
  assert (Hs : s' = (AddBxdf bsdf l, set_weight l weight mem))
    by (destruct Hn; subst n; reflexivity).
  split; [rewrite Hs; reflexivity|].
  split; [rewrite Hs; simpl; rewrite lookup_alter_eq, Hb; reflexivity|].
  intros [_ (l' & Hptr & Hnone & _)]. fold s' in Hptr. rewrite Hs in Hptr.
  simpl in Hptr, Hnone. apply app_inj_tail in Hptr as [_ <-]. congruence.
Qed.

(** *** Measured data *)

(** A node marked as processed, or one without a file name, loads
    nothing. *)
Lemma PostProcess_skips (n : MaterialNode Intersection) (mem : Memory Table) :
  match n with
  | MerlNode flag file _ | FourierBxdfNode flag file _ =>
      flag = true \/ str file = EmptyString
  | _ => True
  end ->
  PostProcess disk n mem = mem.
Proof.
  destruct n as [| | |flag file l|flag file l| | |]; simpl; try reflexivity;
    (intros [->|E]; [reflexivity|];
     unfold MerlNode_PostProcess, FourierBxdfNode_PostProcess;
     rewrite E; destruct flag; reflexivity).
Qed.

(** C3, as the code has it: on a Merl or a Fourier node that is not yet
    marked as processed and has a file name, one [PostProcess] reads the
    file once and a second call reads it again: the flag that guards the
    call is not set by it.  The table in memory is the same after the two
    calls as after one. *)
Theorem C3_PostProcess_loads_again :
  forall (p : MaterialNodeProperty (MaterialNode Intersection))
         (a : Ascii.ascii) (rest : string) (l : loc) (mem : Memory Table),
    let file := String a rest in
    let merl := MerlNode false {| base := p; str := file |} l in
    let fourier := FourierBxdfNode false {| base := p; str := file |} l in
    (loaded (PostProcess disk merl mem) = loaded mem ++ [file]
     /\ loaded (PostProcess disk merl (PostProcess disk merl mem))
        = loaded mem ++ [file; file]
     /\ PostProcess disk merl (PostProcess disk merl mem)
        <> PostProcess disk merl mem
     /\ heap (PostProcess disk merl (PostProcess disk merl mem))
        = heap (PostProcess disk merl mem))
    /\ (loaded (PostProcess disk fourier mem) = loaded mem ++ [file]
        /\ loaded (PostProcess disk fourier (PostProcess disk fourier mem))
           = loaded mem ++ [file; file]
        /\ PostProcess disk fourier (PostProcess disk fourier mem)
           <> PostProcess disk fourier mem
        /\ heap (PostProcess disk fourier (PostProcess disk fourier mem))
           = heap (PostProcess disk fourier mem)).
Proof.
  intros p a rest l mem file merl fourier.
  assert (Hlen : forall xs : list string, xs ++ [file; file] <> xs ++ [file]).
  { intros xs H. apply (f_equal (@List.length string)) in H.
    rewrite !length_app in H. simpl in H. lia. }
  assert (Hheap : heap (LoadData disk l file (LoadData disk l file mem))
                  = heap (LoadData disk l file mem)).
  { simpl. apply map_eq. intros i.
    destruct (decide (l = i)) as [->|Hne].
    - rewrite !lookup_alter_eq.
      destruct (heap mem !! i) as [[[] w]|]; reflexivity.
    - rewrite !lookup_alter_ne by exact Hne. reflexivity. }
  split; (split; [reflexivity|]; split; [simpl; rewrite <- app_assoc; reflexivity|];
          split; [|exact Hheap]);
    intros H; apply (f_equal (@loaded Table)) in H; simpl in H;
    rewrite <- app_assoc in H; exact (Hlen _ H).
Qed.

End Facts.

(** With [MAT_NODE_CONSTANT = 1] and [MAT_NODE_BXDF = 8]: a Lambert node
    whose base colour is wired to another Lambert node, and a layered node
    whose first weight is. *)
Lemma C5_CheckValidation_rejects_witness :
  CheckValidation (Intersection := unit) 1 8 (fun _ => true)
    (LambertNode (connected (LambertNode (constant one)))) = false
  /\ CheckValidation (Intersection := unit) 1 8 (fun _ => true)
       (LayeredBxdfNode [connected (LambertNode (constant one)); constant zero]
          [connected (LambertNode (constant one)); constant one]) = false.
Proof.
  split; apply C5_CheckValidation_rejects.
  - exists "BaseColor"%string, (connected (LambertNode (constant one))),
      (LambertNode (constant one)).
    split; [reflexivity|]. split; [reflexivity|]. discriminate.
  - right.
    exists 0%nat, (connected (LambertNode (constant one))),
      (LambertNode (constant one)).
    split; [reflexivity|]. split; [reflexivity|].
    intros H. apply H. reflexivity.
Defined.

(** A Lambert node with a white base colour, the weight 1/2 and empty
    memory. *)
Lemma analytic_nodes_append_fresh_terms_witness :
  appends_fresh_term clamp_to
    (LambertNode (constant one)) (Spectrum.of_float half)
    ({| intersect := tt; m_bxdf := [] |}, no_memory).
Proof.
  apply (analytic_nodes_append_fresh_terms unit unit clamp_to).
  reflexivity.
Defined.

(** The Merl node of address 1, whose term weighs 1 in memory, called with
    the weight 1/2 on an empty aggregate. *)
Lemma C2_measured_node_shares_its_term_witness :
  let s' := UpdateBSDF clamp_to merl_node (Spectrum.of_float half)
              ({| intersect := tt; m_bxdf := [] |}, merl_memory) in
  m_bxdf (fst s') = [1%positive]
  /\ heap (snd s') !! 1%positive
     = Some {| model := Merl (Some tt); m_weight := Spectrum.of_float half |}
  /\ ~ appends_fresh_term clamp_to merl_node (Spectrum.of_float half)
        ({| intersect := tt; m_bxdf := [] |}, merl_memory).
Proof.
  exact (C2_measured_node_shares_its_term unit unit clamp_to merl_node true
           {| base := constant zero; str := "gold.binary" |} 1%positive
           {| model := Merl (Some tt); m_weight := Spectrum.of_float one |}
           (Spectrum.of_float half) {| intersect := tt; m_bxdf := [] |}
           merl_memory (or_introl eq_refl) eq_refl).
Defined.

(** On that input the property claimed of every node fails: the Merl node
    changes the term it owns and appends that very term. *)
Lemma measured_node_counterexample :
  ~ appends_fresh_term clamp_to merl_node (Spectrum.of_float half)
      ({| intersect := tt; m_bxdf := [] |}, merl_memory).
Proof.
  intros [Hframe _].
  specialize (Hframe 1%positive _ eq_refl).
  vm_compute in Hframe. discriminate Hframe.
Qed.

(** The term is shared: the aggregates built for two shading points from
    the same Merl node hold the same pointer, and the weight written for
    the second replaces the one written for the first. *)
Lemma merl_term_shared :
  let s1 := UpdateBSDF clamp_to merl_node (Spectrum.of_float half)
              ({| intersect := tt; m_bxdf := [] |}, merl_memory) in
  let s2 := UpdateBSDF clamp_to merl_node (Spectrum.of_float quarter)
              ({| intersect := tt; m_bxdf := [] |}, snd s1) in
  m_bxdf (fst s1) = [1%positive] /\ m_bxdf (fst s2) = [1%positive]
  /\ @m_weight unit <$> heap (snd s1) !! 1%positive = Some (Spectrum.of_float half)
  /\ @m_weight unit <$> heap (snd s2) !! 1%positive = Some (Spectrum.of_float quarter).
Proof. vm_compute. auto. Qed.

End MaterialFacts.

(** ** Area light and estimator *)
Module RenderFacts.
Import Float32 Render.

(** *** A small scene to run the code on

    Points and vectors are triples of floats; the area light is a shape of
    area 1 that emits pure red, and the shape's sample has a zero pdf. *)
Definition Vec3 : Type := (float * float * float)%type.

Definition dot3 (u v : Vec3) : float :=
  (u.1.1 * v.1.1 + u.1.2 * v.1.2 + u.2 * v.2)%f32.

Definition neg3 (u : Vec3) : Vec3 := ((- u.1.1)%f32, (- u.1.2)%f32, (- u.2)%f32).

Definition sub3 (u v : Vec3) : Vec3 :=
  ((u.1.1 - v.1.1)%f32, (u.1.2 - v.1.2)%f32, (u.2 - v.2)%f32).

Definition length3 (u : Vec3) : float := sqrt (dot3 u u).

Definition satdot3 (u v : Vec3) : float :=
  let d := dot3 u v in
  if (zero >? d)%f32 then zero else if (d >? one)%f32 then one else d.

Definition origin : Vec3 := (zero, zero, zero).

Definition up : Vec3 := (zero, zero, one).

(** The floats nearest to 2 pi and to 1 / (2 pi). *)
Definition two_pi : float := S754_finite false 13176795 (-21).

Definition inv_two_pi : float := S754_finite false 10680707 (-26).

Definition red : Spectrum := Spectrum.mk one zero zero.

Definition unit_shape : Shape Vec3 Vec3 unit :=
  {| Shape_sample_l := fun _ _ => (up, up, neg3 up, zero);
     Shape_Pdf := fun _ _ => zero;
     SurfaceArea := one |}.

Definition red_light : AreaLight Vec3 Vec3 unit :=
  {| shape := unit_shape; intensity := red |}.

Definition hit : Intersection Vec3 Vec3 :=
  {| intersect := origin; normal := up |}.

Definition no_ray : Ray Vec3 Vec3 :=
  {| m_Ori := origin; m_Dir := origin; m_Depth := 0;
     m_fMin := zero; m_fMax := zero |}.

Definition all_requested : Outputs :=
  {| distance := Some one; pdfW := Some one;
     emissionPdf := Some one; cosAtLight := Some one |}.

(** The power the claim gives: [2 pi * A * I], channel by channel. *)
Definition claimed_Power (TWO_PI : float) (light : AreaLight Vec3 Vec3 unit)
  : Spectrum :=
  (Spectrum.of_float TWO_PI * Spectrum.of_float (SurfaceArea (shape light))
   * intensity light)%spec.

(** A point light above the hit point, of radiance 1 and pdf 1, and the
    area light as the estimator sees it. *)
Definition point_light : Light Vec3 Vec3 unit :=
  {| IsDelta := true;
     Light_sample_l := fun ip _ _ =>
       (Spectrum.of_float one, up, one,
        {| ray := {| m_Ori := intersect ip; m_Dir := up; m_Depth := 0;
                     m_fMin := cent; m_fMax := (one - cent)%f32 |} |}) |}.

Definition area_light : Light Vec3 Vec3 unit :=
  {| IsDelta := false;
     Light_sample_l := fun ip ls visibility =>
       let '(L, dir, out, visibility') :=
         sample_l sub3 length3 neg3 dot3 inv_two_pi red_light ip ls origin
           {| distance := None; pdfW := Some zero;
              emissionPdf := None; cosAtLight := None |} visibility in
       (L, dir, default zero (pdfW out), visibility') |}.

(** Every ray hits at [hit]; the surface reflects 1/2 in every channel and
    nothing is occluded. *)
Definition one_hit_scene : Scene Vec3 Vec3 unit unit :=
  {| GetIntersect := fun _ => Some hit;
     Scene_Le := fun _ => Spectrum.black;
     GetLights := [area_light; point_light];
     GetBsdf := fun _ => tt;
     Visibility_new := {| ray := no_ray |};
     IsVisible := fun _ => true |}.

Definition whitted : WhittedRT Vec3 Vec3 unit unit :=
  {| scene := one_hit_scene; max_recursive_depth := 6 |}.

Definition half_reflectance (_ : unit) (_ _ : Vec3) : Spectrum :=
  Spectrum.of_float half.

Definition camera_ray (depth : Z) : Ray Vec3 Vec3 :=
  {| m_Ori := up; m_Dir := neg3 up; m_Depth := depth;
     m_fMin := zero; m_fMax := one |}.

Definition pixel : PixelSample unit := {| light_sample := fun _ => tt |}.

Section Facts.
Set Implicit Arguments.

Variables Point Vector LightSample : Type.
Variable psub : Point -> Point -> Vector.
Variable Length : Vector -> float.
Variable vneg : Vector -> Vector.
Variables Dot SatDot : Vector -> Vector -> float.
Variables UniformHemispherePdf TWO_PI : float.
Variable GetIntensity : Spectrum -> float.
Variable Bsdf : Type.
Variable Bsdf_f : Bsdf -> Vector -> Vector -> Spectrum.

Abbreviation Light := (Light Point Vector LightSample).
Abbreviation Scene := (Scene Point Vector LightSample Bsdf).
Abbreviation WhittedRT := (WhittedRT Point Vector LightSample Bsdf).

(** What one light adds, as the spec words it:
    [radiance * reflectance * SatDot(incident, normal) / pdf]. *)
Definition contribution (ld f : Spectrum) (lightDir : Vector)
    (ip : Intersection Point Vector) (pdf : float) : Spectrum :=
  (ld * f * SatDot lightDir (normal ip) / pdf)%spec.

(** The terms the lights of [lights] add, in order, when each of them is
    sampled: a light's term is there when its radiance and the reflectance
    are not black and the tester finds the light visible.  The tester
    passes from one light to the next. *)
Fixpoint light_terms (visible : Visibility Point Vector -> bool)
    (r : Ray Point Vector)
    (ps : PixelSample LightSample) (ip : Intersection Point Vector)
    (bsdf : Bsdf) (lights : list Light)
    (visibility : Visibility Point Vector) : list Spectrum :=
  match lights with
  | [] => []
  | light :: lights' =>
      let '(ld, lightDir, pdf, visibility') :=
        Light_sample_l light ip (light_sample ps 0%nat) visibility in
      let f := Bsdf_f bsdf (vneg (m_Dir r)) lightDir in
      (if negb (Spectrum.IsBlack ld) && negb (Spectrum.IsBlack f)
          && visible visibility'
       then [contribution ld f lightDir ip pdf] else [])
      ++ light_terms visible r ps ip bsdf lights' visibility'
  end.

(** The sum of terms, added to [t] from the left as [t += ...] does. *)
Definition sum_from (t : Spectrum) (terms : list Spectrum) : Spectrum :=
  fold_left Spectrum.add terms t.

(** The scene with other lights. *)
Definition with_lights (w : WhittedRT) (lights : list Light) : WhittedRT :=
  {| scene := {| GetIntersect := GetIntersect (scene w);
                 Scene_Le := Scene_Le (scene w);
                 GetLights := lights;
                 GetBsdf := GetBsdf (scene w);
                 Visibility_new := Visibility_new (scene w);
                 IsVisible := IsVisible (scene w) |};
     max_recursive_depth := max_recursive_depth w |}.

Unset Implicit Arguments.

(** *** [AreaLight::Power] *)

(** C4, amended: the power is the scalar [SurfaceArea * GetIntensity *
    TWO_PI], multiplied in this order, in every channel. *)
Theorem C4_Power_is_scalar :
  forall light : AreaLight Point Vector LightSample,
    let p := (SurfaceArea (shape light) * GetIntensity (intensity light)
              * TWO_PI)%f32 in
    Power TWO_PI GetIntensity light = Spectrum.of_float p
    /\ Spectrum.r (Power TWO_PI GetIntensity light) = p
    /\ Spectrum.g (Power TWO_PI GetIntensity light) = p
    /\ Spectrum.b (Power TWO_PI GetIntensity light) = p.
Proof. intros light p. repeat split. Qed.

(** *** [AreaLight::sample_l] *)

(** C8: when the solid-angle pdf is asked for and the shape's sample has a
    pdf equal to zero, the radiance returned is zero; [dirToLight] and the
    pdf hold what the shape gave, and the distance, the cosine at the
    light, the emission pdf and the tester's ray hold what they held. *)
Theorem C8_sample_l_zero_pdf :
  forall (light : AreaLight Point Vector LightSample)
         (ip : Intersection Point Vector) (ls : LightSample)
         (dirToLight : Vector) (out : Outputs)
         (visibility : Visibility Point Vector)
         (ps : Point) (dir normal_ : Vector) (pdf : float),
    is_Some (pdfW out) ->
    Shape_sample_l (shape light) ls (intersect ip) = (ps, dir, normal_, pdf) ->
    (pdf ==? zero)%f32 = true ->
    sample_l psub Length vneg Dot UniformHemispherePdf
      light ip ls dirToLight out visibility
    = (Spectrum.of_float zero, dir,
       {| distance := distance out; pdfW := Some pdf;
          emissionPdf := emissionPdf out; cosAtLight := cosAtLight out |},
       visibility).
Proof.
  intros light ip ls dirToLight out visibility ps dir normal_ pdf
    [p0 Hp] Hshape Hzero.
  unfold sample_l. rewrite Hshape, Hp. simpl. rewrite Hzero. reflexivity.
Qed.

(** *** [WhittedRT::Li] *)

(** C7: beyond the recursion limit the radiance is zero, whatever the
    scene holds. *)
Theorem C7_Li_depth_limit :
  forall (w : WhittedRT) (r : Ray Point Vector) (ps : PixelSample LightSample),
    max_recursive_depth w < m_Depth r ->
    Li vneg SatDot Bsdf_f w r ps = Spectrum.of_float zero.
Proof.
  intros w r ps Hdepth. unfold Li.
  rewrite (proj2 (Z.gtb_lt _ _) Hdepth). reflexivity.
Qed.

Lemma Li_lights_terms (w : WhittedRT) r ps ip bsdf lights t visibility :
  Li_lights vneg SatDot Bsdf_f w r ps ip bsdf lights t visibility
  = sum_from t
      (light_terms (IsVisible (scene w)) r ps ip bsdf
         (List.filter (@IsDelta _ _ _) lights) visibility).
Proof.
  revert t visibility.
  induction lights as [|light lights IH]; intros t visibility; simpl;
    [reflexivity|].
  destruct (IsDelta light); simpl; [|apply IH].
  destruct (Light_sample_l light ip (light_sample ps 0%nat) visibility)
    as [[[ld lightDir] pdf] visibility'].
  unfold sum_from. rewrite fold_left_app. fold (sum_from t).
  destruct (Spectrum.IsBlack ld); simpl; [apply IH|].
  destruct (Spectrum.IsBlack (Bsdf_f bsdf (vneg (m_Dir r)) lightDir)); simpl;
    [apply IH|].
  destruct (IsVisible (scene w) visibility'); simpl; apply IH.
Qed.

Lemma filter_IsDelta_idem (lights : list Light) :
  List.filter (@IsDelta _ _ _) (List.filter (@IsDelta _ _ _) lights)
  = List.filter (@IsDelta _ _ _) lights.
Proof.
  induction lights as [|light lights IH]; simpl; [reflexivity|].
  destruct (IsDelta light) eqn:E; simpl; [rewrite E, IH|]; auto.
Qed.

(** C6: for a ray within the recursion limit that hits the scene, the
    radiance is the sum, from black, of the terms of the delta lights
    alone, each present only when the light's radiance and the reflectance
    are not black and the light is visible; the scene without its
    non-delta lights gives the same radiance. *)
Theorem C6_Li_sums_delta_lights :
  forall (w : WhittedRT) (r : Ray Point Vector) (ps : PixelSample LightSample)
         (ip : Intersection Point Vector),
    m_Depth r <= max_recursive_depth w ->
    GetIntersect (scene w) r = Some ip ->
    let deltas := List.filter (@IsDelta _ _ _) (GetLights (scene w)) in
    Li vneg SatDot Bsdf_f w r ps
    = sum_from Spectrum.black
        (light_terms (IsVisible (scene w)) r ps ip (GetBsdf (scene w) ip) deltas
           (Visibility_new (scene w)))
    /\ Li vneg SatDot Bsdf_f w r ps
       = Li vneg SatDot Bsdf_f (with_lights w deltas) r ps.
Proof.
  intros w r ps ip Hdepth Hhit deltas. unfold Li. simpl.
  assert (Hle : (m_Depth r >? max_recursive_depth w) = false)
    by (rewrite Z.gtb_ltb; apply Z.ltb_ge; lia).
  rewrite Hle, Hhit, !Li_lights_terms. simpl.
  subst deltas. rewrite filter_IsDelta_idem. split; reflexivity.
Qed.

End Facts.

(** C4 fails on a coloured light: whatever scalar [GetIntensity] gives for
    pure red, the power of the red light of area 1 has three equal
    channels, and [2 pi * A * I] has not. *)
Lemma C4_Power_counterexample :
  ~ exists GetIntensity : Spectrum -> float,
      Power two_pi GetIntensity red_light = claimed_Power two_pi red_light.
Proof.
  intros [GetIntensity H].
  assert (Hr := f_equal Spectrum.r H). assert (Hg := f_equal Spectrum.g H).
  cbn in Hr, Hg. rewrite Hr in Hg. vm_compute in Hg. discriminate Hg.
Qed.

(** The red light sampled from [hit] with every output asked for: the
    shape's pdf is zero. *)
Lemma C8_sample_l_zero_pdf_witness :
  sample_l sub3 length3 neg3 dot3 inv_two_pi red_light hit tt origin
    all_requested {| ray := no_ray |}
  = (Spectrum.of_float zero, up,
     {| distance := Some one; pdfW := Some zero;
        emissionPdf := Some one; cosAtLight := Some one |},
     {| ray := no_ray |}).
Proof.
  apply (C8_sample_l_zero_pdf Vec3 Vec3 unit sub3 length3 neg3 dot3 inv_two_pi
           red_light hit tt origin all_requested {| ray := no_ray |}
           up up (neg3 up) zero).
  - exists one. reflexivity.
  - reflexivity.
  - reflexivity.
Defined.

(** A ray of depth 7 under a limit of 6. *)
Lemma C7_Li_depth_limit_witness :
  Li neg3 satdot3 half_reflectance whitted (camera_ray 7) pixel
  = Spectrum.of_float zero.
Proof.
  apply (C7_Li_depth_limit Vec3 Vec3 unit neg3 satdot3 unit half_reflectance
           whitted (camera_ray 7) pixel).
  simpl. lia.
Defined.

(** A camera ray of depth 0 in the scene of one area light and one point
    light. *)
Lemma C6_Li_sums_delta_lights_witness :
  Li neg3 satdot3 half_reflectance whitted (camera_ray 0) pixel
  = sum_from Spectrum.black
      (light_terms neg3 satdot3 half_reflectance
         (IsVisible one_hit_scene) (camera_ray 0) pixel hit tt [point_light]
         {| ray := no_ray |})
  /\ Li neg3 satdot3 half_reflectance whitted (camera_ray 0) pixel
     = Li neg3 satdot3 half_reflectance
         (with_lights whitted [point_light])
         (camera_ray 0) pixel.
Proof.
  apply (C6_Li_sums_delta_lights Vec3 Vec3 unit neg3 satdot3 unit
           half_reflectance whitted (camera_ray 0) pixel hit).
  - simpl. lia.
  - reflexivity.
Defined.

(** On that scene the radiance is the point light's term alone,
    [1 * 1/2 * 1 / 1]. *)
Lemma Li_one_hit_scene :
  Li neg3 satdot3 half_reflectance whitted (camera_ray 0) pixel
  = Spectrum.of_float half.
Proof. vm_compute. reflexivity. Qed.

End RenderFacts.

(** ** More on the Fresnel models *)
Module FresnelMore.
Import Float32 Fresnel FresnelFacts.
Local Open Scope f32_scope.

(** A float that is a number other than zero: not NaN, not infinite. *)
Definition nonzero_finite (c : float) : bool :=
  match c with S754_finite _ _ _ => true | _ => false end.

(** A float that is a number, zero included. *)
Definition finite (c : float) : bool :=
  match c with S754_finite _ _ _ | S754_zero _ => true | _ => false end.

(** The parameters on which the conductor formula meets no overflow and
    no [0 / 0] at a zero cosine. *)
Definition conductor_regular (eta k : Spectrum) : bool :=
  finite (two * Spectrum.r eta)
  && nonzero_finite (Spectrum.r eta * Spectrum.r eta + Spectrum.r k * Spectrum.r k)
  && finite (two * Spectrum.g eta)
  && nonzero_finite (Spectrum.g eta * Spectrum.g eta + Spectrum.g k * Spectrum.g k)
  && finite (two * Spectrum.b eta)
  && nonzero_finite (Spectrum.b eta * Spectrum.b eta + Spectrum.b k * Spectrum.b k).

(** A float that is a number other than zero, or an infinity. *)
Definition number_not_zero (c : float) : bool :=
  match c with S754_finite _ _ _ | S754_infinity _ => true | _ => false end.

(** A float that binary32 can hold: its mantissa and exponent are in
    range and normalised. *)
Definition representable (c : float) : bool := valid_binary prec emax c.

(** *** Signs in IEEE arithmetic *)

Lemma binary_round_aux_opp s m e l :
  binary_round_aux prec emax (negb s) m e l
  = SFopp (binary_round_aux prec emax s m e l).
Proof.
  unfold binary_round_aux.
  destruct (shr_fexp prec emax m e l) as [mrs' e'].
  destruct (shr_fexp prec emax _ e' loc_Exact) as [mrs'' e''].
  destruct (shr_m mrs''); [reflexivity| |reflexivity].
  destruct (e'' <=? emax - prec)%Z; reflexivity.
Qed.

Lemma binary_round_opp s m e :
  binary_round prec emax (negb s) m e = SFopp (binary_round prec emax s m e).
Proof.
  unfold binary_round.
  destruct (shl_align m e _) as [mz ez]. apply binary_round_aux_opp.
Qed.

Lemma div_neg_l (a b : float) : (- a) / b = - (a / b).
Proof.
  destruct a as [sa|sa| |sa ma ea], b as [sb|sb| |sb mb eb];
    try reflexivity; try (destruct sa, sb; reflexivity).
  unfold div, neg. simpl SFopp. unfold SFdiv.
  destruct (SFdiv_core_binary prec emax (Z.pos ma) ea (Z.pos mb) eb)
    as [[mz ez] lz].
  replace (xorb (negb sa) sb) with (negb (xorb sa sb)) by (destruct sa, sb; reflexivity).
  apply binary_round_aux_opp.
Qed.

Lemma mul_neg_neg (a b : float) : (- a) * (- b) = a * b.
Proof.
  destruct a as [sa|sa| |sa ma ea], b as [sb|sb| |sb mb eb];
    try reflexivity; try (destruct sa, sb; reflexivity).
Qed.

Lemma add_comm (a b : float) : a + b = b + a.
Proof.
  destruct a as [sa|sa| |sa ma ea], b as [sb|sb| |sb mb eb];
    try reflexivity; try (destruct sa, sb; reflexivity).
  unfold add, SFadd. cbv zeta. rewrite (Z.min_comm eb ea). f_equal. apply Z.add_comm.
Qed.

(** [b - a] is the opposite of [a - b], except that both are [+0] when
    the difference vanishes. *)
Lemma sub_swap (a b : float) :
  b - a = - (a - b) \/ (a - b = zero /\ b - a = zero).
Proof.
  destruct a as [sa|sa| |sa ma ea], b as [sb|sb| |sb mb eb];
    try (left; reflexivity);
    try (destruct sa, sb; (left; reflexivity) || (right; split; reflexivity)).
  unfold sub, neg, SFsub. cbv zeta. rewrite (Z.min_comm eb ea).
  set (x := cond_Zopp sa (Z.pos (shl_align ma ea (Z.min ea eb)).1)).
  set (y := cond_Zopp sb (Z.pos (shl_align mb eb (Z.min ea eb)).1)).
  replace (y - x)%Z with (- (x - y))%Z by lia.
  destruct (x - y)%Z as [|p|p]; simpl.
  - right. split; reflexivity.
  - left. apply (binary_round_opp false).
  - left. change (SFopp (binary_round prec emax true p (Z.min ea eb)))
      with (SFopp (binary_round prec emax (negb false) p (Z.min ea eb))).
    rewrite (binary_round_opp false).
    destruct (binary_round _ _ _ _ _) as [[]|[]| |[] ? ?]; reflexivity.
Qed.

(** The square of the ratio [(a - b) / (a + b)] is the same for [(b, a)]. *)
Lemma ratio_square_swap (a b : float) :
  let r := (a - b) / (a + b) in
  let r' := (b - a) / (b + a) in
  r' * r' = r * r.
Proof.
  simpl. rewrite (add_comm b a).
  destruct (sub_swap a b) as [->|[-> ->]]; [|reflexivity].
  rewrite div_neg_l. apply mul_neg_neg.
Qed.

(** *** Exact quotients *)

Lemma SFdiv_core_binary_self (m : positive) (e : Z) :
  SFdiv_core_binary prec emax (Z.pos m) e (Z.pos m) e
  = (16777216%Z, (-24)%Z, loc_Exact).
Proof.
  unfold SFdiv_core_binary.
  rewrite Z.sub_diag, Z.sub_diag.
  change (Z.min (fexp prec emax 0) 0) with (-24)%Z.
  change (0 - -24)%Z with 24%Z. cbv iota.
  rewrite Z.shiftl_mul_pow2 by lia.
  assert (Hq : (Z.pos m * 2 ^ 24 / Z.pos m = 2 ^ 24)%Z)
    by (rewrite Z.mul_comm; apply Z.div_mul; lia).
  assert (Hr : (Z.pos m * 2 ^ 24 mod Z.pos m = 0)%Z)
    by (rewrite Z.mul_comm; apply Z.mod_mul; lia).
  unfold Z.div in Hq. unfold Z.modulo in Hr.
  destruct (Z.div_eucl (Z.pos m * 2 ^ 24) (Z.pos m)) as [q r].
  subst q r. change (2 ^ 24)%Z with 16777216%Z.
  unfold new_location, new_location_even, new_location_odd.
  destruct (Z.even (Z.pos m)); reflexivity.
Qed.

(** A number other than zero divided by itself is [1], and by its
    opposite [-1]. *)
Lemma div_self (s s' : bool) (m : positive) (e : Z) :
  S754_finite s m e / S754_finite s' m e
  = if xorb s s' then - one else one.
Proof.
  unfold div, SFdiv. rewrite SFdiv_core_binary_self.
  destruct (xorb s s'); reflexivity.
Qed.

Local Close Scope f32_scope.

(** The double of a number other than zero is not zero: it is a number
    or, on overflow, an infinity. *)
Lemma add_self_not_zero (s : bool) (m : positive) (e : Z) :
  representable (S754_finite s m e) = true ->
  number_not_zero (add (S754_finite s m e) (S754_finite s m e)) = true.
Proof.
  unfold representable. simpl. unfold bounded, canonical_mantissa. intros H.
  apply andb_prop in H as [Hc He]. apply Z.eqb_eq in Hc. apply Z.leb_le in He.
  unfold add, SFadd. cbv zeta. rewrite Z.min_id.
  unfold shl_align at 1 2. rewrite Z.sub_diag. simpl fst.
  assert (Hsum : cond_Zopp s (Z.pos m) + cond_Zopp s (Z.pos m)
                 = cond_Zopp s (Z.pos m~0)) by (destruct s; simpl; lia).
  rewrite Hsum.
  assert (Hn : binary_normalize prec emax (cond_Zopp s (Z.pos m~0)) e false
               = binary_round prec emax s m~0 e) by (destruct s; reflexivity).
  rewrite Hn. clear Hsum Hn.
  unfold fexp, emin, prec, emax in Hc, He.
  set (d := digits2_pos m) in *.
  assert (Hd : fexp 24 128 (Z.pos (digits2_pos m~0) + e) = e
               \/ (fexp 24 128 (Z.pos (digits2_pos m~0) + e) = e + 1
                   /\ fexp 24 128 (Z.pos d + (e + 1)) = e + 1)).
  { unfold fexp, emin. simpl digits2_pos. fold d.
    change (PosDef.Pos.succ d) with (Pos.succ d). lia. }
  unfold binary_round, prec, emax.
  destruct Hd as [Hd|[Hd Hd']].
  - rewrite Hd. unfold shl_align. rewrite Z.sub_diag.
    unfold binary_round_aux, shr_fexp. unfold Zdigits2 at 1. rewrite Hd, Z.sub_diag.
    cbn [shr shr_record_of_loc loc_of_shr_record round_nearest_even shr_m
         shr_r shr_s Zdigits2].
    rewrite Hd, Z.sub_diag. cbn [shr shr_m].
    destruct (e <=? 128 - 24); reflexivity.
  - rewrite Hd. unfold shl_align.
    replace (e + 1 - e) with 1 by lia.
    unfold binary_round_aux, shr_fexp. unfold Zdigits2 at 1. rewrite Hd.
    replace (e + 1 - e) with 1 by lia.
    cbn [shr iter_pos shr_1 shr_record_of_loc loc_of_shr_record
         round_nearest_even shr_m shr_r shr_s Zdigits2 orb].
    fold d.
    rewrite Hd', Z.sub_diag. cbn [shr shr_m].
    destruct (e + 1 <=? 128 - 24); reflexivity.
Qed.

Local Open Scope f32_scope.

Lemma sub_self (s : bool) (m : positive) (e : Z) :
  S754_finite s m e - S754_finite s m e = zero.
Proof. unfold sub, SFsub. cbv zeta. rewrite Z.sub_diag. reflexivity. Qed.

(** *** The two models at their limits *)

Lemma conductor_channel_grazing (e k c : float) :
  is_zero c = true ->
  finite (two * e) = true ->
  nonzero_finite (e * e + k * k) = true ->
  conductor_channel e k (cabs c) = one.
Proof.
  intros Hc Hf Hg. destruct c as [s| | |]; try discriminate Hc.
  rewrite cabs_zero. unfold conductor_channel.
  destruct (two * e) as [sf| | |sf mf ef]; try discriminate Hf;
    destruct (e * e + k * k) as [| | |sg mg eg]; try discriminate Hg;
    destruct s, sf, sg; cbn -[div]; rewrite !div_self; reflexivity.
Qed.

(** X1: at grazing incidence, a cosine equal to [+0] or [-0], the
    conductor reflects everything, in every channel, as soon as no [2 * eta]
    overflows and every [eta^2 + k^2] is a number other than zero. *)
Theorem conductor_grazing_reflects_all :
  forall (eta k : Spectrum) (cosi coso : float),
    is_zero cosi = true ->
    conductor_regular eta k = true ->
    EvaluateConductor eta k cosi coso = Spectrum.of_float one.
Proof.
  intros eta k cosi coso Hc Hreg. unfold conductor_regular in Hreg.
  repeat (apply andb_prop in Hreg; destruct Hreg as [Hreg ?]).
  rewrite EvaluateConductor_channels.
  rewrite !conductor_channel_grazing by assumption. reflexivity.
Qed.

Lemma mul_finite_r (a b : float) :
  nonzero_finite (a * b) = true -> nonzero_finite a = true.
Proof.
  destruct a as [sa|sa| |sa ma ea], b as [sb|sb| |sb mb eb];
    simpl; congruence.
Qed.

(** With [t0] and [t2] zeros, each ratio is [- t / t]. *)
Lemma ratio_grazing_l (s : bool) (t : float) :
  nonzero_finite t = true -> (S754_zero s - t) / (S754_zero s + t) = - one.
Proof.
  destruct t as [| | |st mt et]; try discriminate. intros _.
  cbn -[div]. rewrite div_self. destruct st; reflexivity.
Qed.

Lemma ratio_grazing_r (s : bool) (t : float) :
  nonzero_finite t = true -> (t - S754_zero s) / (t + S754_zero s) = one.
Proof.
  destruct t as [| | |st mt et]; try discriminate. intros _.
  cbn -[div]. rewrite div_self. destruct st; reflexivity.
Qed.

Lemma mul_zero_finite (a : float) (s : bool) :
  nonzero_finite a = true -> exists s', a * S754_zero s = S754_zero s'.
Proof. destruct a; try discriminate. intros _. simpl. eauto. Qed.

(** X2: the dielectric reflects everything at grazing incidence and at
    grazing exitance: when one cosine is [+0] or [-0] and the products of
    the two indices with the other cosine's absolute value are numbers
    other than zero. *)
Theorem dielectric_grazing_reflects_all :
  forall (eta_i eta_t cosi coso : float),
    (is_zero cosi = true ->
     nonzero_finite (eta_i * cabs coso) = true ->
     nonzero_finite (eta_t * cabs coso) = true ->
     EvaluateDielectric eta_i eta_t cosi coso = Spectrum.of_float one)
    /\ (is_zero coso = true ->
        nonzero_finite (eta_i * cabs cosi) = true ->
        nonzero_finite (eta_t * cabs cosi) = true ->
        EvaluateDielectric eta_i eta_t cosi coso = Spectrum.of_float one).
Proof.
  intros eta_i eta_t cosi coso.
  rewrite EvaluateDielectric_value. unfold dielectric_value.
  split; intros Hc H1 H3.
  - destruct cosi as [s| | |]; try discriminate Hc. rewrite cabs_zero.
    destruct (mul_zero_finite eta_i (negb s) (mul_finite_r _ _ H1)) as [s2 ->].
    destruct (mul_zero_finite eta_t (negb s) (mul_finite_r _ _ H3)) as [s0 ->].
    rewrite !ratio_grazing_l by assumption. reflexivity.
  - destruct coso as [s| | |]; try discriminate Hc. rewrite cabs_zero.
    destruct (mul_zero_finite eta_i (negb s) (mul_finite_r _ _ H1)) as [s1 ->].
    destruct (mul_zero_finite eta_t (negb s) (mul_finite_r _ _ H3)) as [s3 ->].
    rewrite !ratio_grazing_r by assumption. reflexivity.
Qed.

(** X3: the dielectric model is reciprocal: exchanging the two media
    together with the two cosines gives the same reflectance, for all
    floats. *)
Theorem dielectric_reciprocal :
  forall (eta_i eta_t cosi coso : float),
    EvaluateDielectric eta_t eta_i coso cosi
    = EvaluateDielectric eta_i eta_t cosi coso.
Proof.
  intros eta_i eta_t cosi coso.
  rewrite !EvaluateDielectric_value. unfold dielectric_value.
  pose proof (ratio_square_swap (eta_t * cabs cosi) (eta_i * cabs coso)) as H1.
  pose proof (ratio_square_swap (eta_i * cabs cosi) (eta_t * cabs coso)) as H2.
  simpl in H1, H2. rewrite H1, H2. reflexivity.
Qed.

(** X4: between two media of the same index, with cosines of the same
    absolute value, the dielectric reflects nothing, as soon as the index
    times the cosine is a binary32 number other than zero. *)
Theorem dielectric_index_matched :
  forall (eta cosi coso : float),
    cabs cosi = cabs coso ->
    nonzero_finite (eta * cabs cosi) = true ->
    representable (eta * cabs cosi) = true ->
    EvaluateDielectric eta eta cosi coso = Spectrum.of_float zero.
Proof.
  intros eta cosi coso Hcos Hnz Hrep.
  rewrite EvaluateDielectric_value. unfold dielectric_value. rewrite <- Hcos.
  destruct (eta * cabs cosi) as [| | |s m e]; try discriminate Hnz.
  rewrite sub_self.
  pose proof (add_self_not_zero s m e Hrep) as Hsum.
  destruct (S754_finite s m e + S754_finite s m e) as [| [] | |[] ? ?];
    try discriminate Hsum; reflexivity.
Qed.

(** A copper-like conductor and a glass interface, seen edge-on. *)
Lemma conductor_grazing_reflects_all_witness :
  EvaluateConductor (Spectrum.of_float half) (Spectrum.of_float two) zero one
  = Spectrum.of_float one.
Proof.
  apply (conductor_grazing_reflects_all
           (Spectrum.of_float half) (Spectrum.of_float two) zero one);
    reflexivity.
Defined.

Lemma dielectric_grazing_reflects_all_witness :
  EvaluateDielectric one two zero half = Spectrum.of_float one
  /\ EvaluateDielectric one two half (- zero) = Spectrum.of_float one.
Proof.
  split.
  - apply (proj1 (dielectric_grazing_reflects_all one two zero half));
      reflexivity.
  - apply (proj2 (dielectric_grazing_reflects_all one two half (- zero)));
      reflexivity.
Defined.

(** Glass against glass, at a cosine of 1/2 on one side and -1/2 on the
    other. *)
Lemma dielectric_index_matched_witness :
  EvaluateDielectric two two half (- half) = Spectrum.of_float zero.
Proof.
  apply (dielectric_index_matched two half (- half)); reflexivity.
Defined.

End FresnelMore.

(** ** More on the material nodes *)
Module MaterialMore.
Import Float32 Material MaterialFacts.

Section Facts.
Set Implicit Arguments.

Variables MAT_NODE_CONSTANT MAT_NODE_BXDF : MAT_NODE_TYPE.
Variables Intersection Table : Type.
Variable MaterialNode_CheckValidation : MaterialNode Intersection -> bool.
Variable clamp : float -> float -> float -> float.
Variable disk : string -> Table.

Abbreviation Slot := (MaterialNodeProperty (MaterialNode Intersection)).
Abbreviation State := (Bsdf Intersection * Memory Table)%type.

(** The number of terms a node adds: one for a leaf of [bxdf_node.cpp],
    and for a layered node the terms of the nodes in its connected slot
    pairs. *)
Fixpoint term_count (n : MaterialNode Intersection) : nat :=
  match n with
  | OtherNode _ _ => 0
  | LayeredBxdfNode bxdfs weights =>
      (fix pairs (bs ws : list Slot) {struct bs} : nat :=
         match bs, ws with
         | bi :: bs', _ :: ws' =>
             match bi with
             | {| node := Some sub |} => term_count sub
             | {| node := None |} => 0
             end + pairs bs' ws'
         | _, _ => 0
         end) bxdfs weights
  | _ => 1
  end%nat.

(** What [UpdateBSDF] keeps from [s] to [s']: the shading point, the files
    read, every address in memory with the model of its term (the weight
    may change), and the terms already in the aggregate, after which
    [added] pointers come. *)
Definition extends_by (added : nat) (s s' : State) : Prop :=
  intersect (fst s') = intersect (fst s)
  /\ loaded (snd s') = loaded (snd s)
  /\ (forall l b, heap (snd s) !! l = Some b ->
        exists w, heap (snd s') !! l = Some {| model := model b; m_weight := w |})
  /\ exists ptrs, m_bxdf (fst s') = m_bxdf (fst s) ++ ptrs
                  /\ List.length ptrs = added.

(** A node under which no Merl and no Fourier node is reached through a
    connected slot pair. *)
Fixpoint measured_free (n : MaterialNode Intersection) : bool :=
  match n with
  | MerlNode _ _ _ | FourierBxdfNode _ _ _ => false
  | LayeredBxdfNode bxdfs weights =>
      (fix pairs (bs ws : list Slot) {struct bs} : bool :=
         match bs, ws with
         | bi :: bs', _ :: ws' =>
             match bi with
             | {| node := Some sub |} => measured_free sub
             | {| node := None |} => true
             end && pairs bs' ws'
         | _, _ => true
         end) bxdfs weights
  | _ => true
  end.

(** From [s] to [s'] nothing in memory changed, and the aggregate gained
    pointers to terms that were not in memory. *)
Definition adds_new_terms (s s' : State) : Prop :=
  (forall l b, heap (snd s) !! l = Some b -> heap (snd s') !! l = Some b)
  /\ exists ptrs, m_bxdf (fst s') = m_bxdf (fst s) ++ ptrs
                  /\ forall l, l ∈ ptrs ->
                       heap (snd s) !! l = None /\ is_Some (heap (snd s') !! l).

(** The address of the term a measured node owns. *)
Definition own_term (n : MaterialNode Intersection) : option loc :=
  match n with
  | MerlNode _ _ l | FourierBxdfNode _ _ l => Some l
  | _ => None
  end.

(** A weight slot holding the constant spectrum [w]. *)
Definition weight_slot (w : Spectrum) : Slot :=
  {| node := None;
     value := {| x := Spectrum.r w; y := Spectrum.g w; z := Spectrum.b w |} |}.

(** The names the two microfacet nodes compare [mf_dist.str] and
    [mf_vis.str] with. *)
Definition known_dist (name : string) : bool :=
  String.eqb name "Blinn" || String.eqb name "Beckmann".

Definition known_vis (name : string) : bool :=
  String.eqb name "Neumann" || String.eqb name "Kelemen"
  || String.eqb name "Schlick" || String.eqb name "Smith"
  || String.eqb name "SmithJointApprox" || String.eqb name "CookTorrance".

(** The term [UpdateBSDF] allocates, read back from memory: the arena hands
    out the address [fresh] of the memory before the call. *)
Definition new_term (n : MaterialNode Intersection) (weight : Spectrum)
    (s : State) : option (Bxdf Table) :=
  heap (snd (UpdateBSDF clamp n weight s)) !! fresh (dom (heap (snd s))).

(** The distribution and the visibility term of a microfacet term. *)
Definition distribution_of (b : option (Bxdf Table))
  : option MicroFacetDistribution :=
  match @model Table <$> b with
  | Some (MicroFacetReflection _ _ d _)
  | Some (MicroFacetRefraction _ _ d _ _ _) => Some d
  | _ => None
  end.

Definition visibility_of (b : option (Bxdf Table)) : option VisTerm :=
  match @model Table <$> b with
  | Some (MicroFacetReflection _ _ _ v)
  | Some (MicroFacetRefraction _ _ _ v _ _) => Some v
  | _ => None
  end.

Unset Implicit Arguments.

(** *** Validation *)

Lemma for_props_true_iff rejected (ps : list Slot) rest :
  for_props MAT_NODE_BXDF rejected ps rest = true
  <-> (forall p sub, p ∈ ps -> node p = Some sub ->
         rejected (getNodeType MAT_NODE_BXDF sub) = false)
      /\ rest = true.
Proof.
  induction ps as [|q ps IH]; simpl.
  - split; [intros ->; split; [intros p sub Hin; inversion Hin|reflexivity]
           |intros [_ H]; exact H].
  - destruct (node q) as [sub'|] eqn:Hq.
    + destruct (rejected (getNodeType MAT_NODE_BXDF sub')) eqn:Hr.
      * split; [discriminate|]. intros [H _].
        rewrite (H q sub' ltac:(left) Hq) in Hr. discriminate Hr.
      * rewrite IH. split; intros [H Hrest]; (split; [|exact Hrest]).
        -- intros p sub Hin Hp. apply elem_of_cons in Hin as [->|Hin].
           ++ rewrite Hq in Hp. injection Hp as <-. exact Hr.
           ++ exact (H p sub Hin Hp).
        -- intros p sub Hin. apply H. right. exact Hin.
    + rewrite IH. split; intros [H Hrest]; (split; [|exact Hrest]).
      * intros p sub Hin Hp. apply elem_of_cons in Hin as [->|Hin].
        -- congruence.
        -- exact (H p sub Hin Hp).
      * intros p sub Hin. apply H. right. exact Hin.
Qed.

(** X5: [CheckValidation] accepts a node exactly when its wiring breaks no
    rule of its kind and the validation common to all nodes accepts it. *)
Theorem CheckValidation_accepts_iff (n : MaterialNode Intersection) :
  CheckValidation MAT_NODE_CONSTANT MAT_NODE_BXDF MaterialNode_CheckValidation n
  = true
  <-> ~ wiring_violation MAT_NODE_CONSTANT MAT_NODE_BXDF n
      /\ MaterialNode_CheckValidation n = true.
Proof.
  assert (Hleaf : forall n' : MaterialNode Intersection,
             BxdfNode_CheckValidation MAT_NODE_BXDF MaterialNode_CheckValidation n'
             = true
             <-> ~ (exists name p sub,
                       m_props n' !! name = Some p /\ node p = Some sub
                       /\ BXDF_typed MAT_NODE_BXDF sub)
                 /\ MaterialNode_CheckValidation n' = true).
  { intros n'. unfold BxdfNode_CheckValidation. rewrite for_props_true_iff.
    split; intros [H Hbase]; (split; [|exact Hbase]).
    - intros (name & p & sub & Hp & Hnode & Hty).
      apply elem_of_map_to_list in Hp.
      apply (list_elem_of_fmap_2 snd) in Hp.
      specialize (H p sub Hp Hnode).
      apply negb_false_iff, Z.eqb_eq in H. exact (Hty H).
    - intros p sub Hin Hnode.
      apply list_elem_of_fmap in Hin as [[name p'] [-> Hin]].
      apply elem_of_map_to_list in Hin. simpl in Hnode.
      apply negb_false_iff, Z.eqb_eq.
      destruct (Z.eq_dec (Z.land (getNodeType MAT_NODE_BXDF sub) MAT_NODE_BXDF) 0)
        as [E|E]; [exact E|].
      exfalso. apply H. exists name, p', sub. auto. }
  destruct n; simpl; try apply Hleaf.
  - tauto.
  - unfold LayeredBxdfNode_CheckValidation.
    rewrite !for_props_true_iff. unfold BXDF_typed, CONSTANT_typed.
    split.
    + intros (Hb & Hw & Hbase). split; [|exact Hbase].
      intros [(i & p & sub & Hp & Hnode & Hty)|(i & p & sub & Hp & Hnode & Hty)].
      * apply list_elem_of_lookup_2 in Hp.
        specialize (Hb p sub Hp Hnode). apply Z.eqb_neq in Hb. tauto.
      * apply list_elem_of_lookup_2 in Hp.
        specialize (Hw p sub Hp Hnode). apply Z.eqb_neq in Hw. tauto.
    + intros [H Hbase]. repeat split; [| |exact Hbase].
      * intros p sub Hin Hnode. apply Z.eqb_neq. intros E.
        apply list_elem_of_lookup_1 in Hin as [i Hi].
        apply H. left. exists i, p, sub. repeat split; auto.
      * intros p sub Hin Hnode. apply Z.eqb_neq. intros E.
        apply list_elem_of_lookup_1 in Hin as [i Hi].
        apply H. right. exists i, p, sub. repeat split; auto.
Qed.

(** *** The property table of a layered node *)

Lemma elem_of_indexed (name key : string) (ps : list Slot) (p : Slot) :
  (key, p) ∈ indexed name ps
  <-> exists i, key = name +:+ pretty i /\ ps !! i = Some p.
Proof.
  unfold indexed. rewrite elem_of_lookup_imap. split.
  - intros (i & q & E & Hq). injection E as -> ->. eauto.
  - intros (i & -> & Hp). eauto.
Qed.

Lemma m_props_Layered_Some (bxdfs weights : list Slot) (key : string) (p : Slot) :
  m_props (LayeredBxdfNode bxdfs weights) !! key = Some p
  <-> (exists i, key = "Bxdf" +:+ pretty i /\ bxdfs !! i = Some p)
      \/ (exists i, key = "Weight" +:+ pretty i /\ weights !! i = Some p).
Proof.
  simpl. rewrite <- elem_of_list_to_map'.
  - rewrite elem_of_app, !elem_of_indexed. reflexivity.
  - intros p'. rewrite !elem_of_app, !elem_of_indexed.
    intros [(i & -> & Hi)|(i & -> & Hi)] [(j & E & Hj)|(j & E & Hj)];
      try discriminate E;
      apply (inj (String.app _)), (inj pretty) in E; congruence.
Qed.

(** X6: the constructor of the layered node registers slot [i] of
    [bxdfs] under the name [Bxdf] followed by [i] in decimal, slot [i] of
    [weights] under [Weight] followed by [i], and no other name. *)
Theorem m_props_Layered_lookup :
  forall (bxdfs weights : list Slot),
    (forall i : nat,
        m_props (LayeredBxdfNode bxdfs weights) !! ("Bxdf" +:+ pretty i)
        = bxdfs !! i
        /\ m_props (LayeredBxdfNode bxdfs weights) !! ("Weight" +:+ pretty i)
           = weights !! i)
    /\ (forall key : string,
           is_Some (m_props (LayeredBxdfNode bxdfs weights) !! key) ->
           exists i : nat,
             (key = "Bxdf" +:+ pretty i /\ (i < List.length bxdfs)%nat)
             \/ (key = "Weight" +:+ pretty i /\ (i < List.length weights)%nat)).
Proof.
  intros bxdfs weights. split.
  - intros i. split; apply option_eq; intros p;
      rewrite m_props_Layered_Some; split.
    + intros [(j & E & Hj)|(j & E & Hj)]; [|discriminate E].
      apply (inj (String.app _)), (inj pretty) in E. congruence.
    + intros Hi. left. eauto.
    + intros [(j & E & Hj)|(j & E & Hj)]; [discriminate E|].
      apply (inj (String.app _)), (inj pretty) in E. congruence.
    + intros Hi. right. eauto.
  - intros key [p Hp]. apply m_props_Layered_Some in Hp
      as [(i & -> & Hi)|(i & -> & Hi)]; exists i;
      apply lookup_lt_Some in Hi; auto.
Qed.

(** *** Building the aggregate *)

Lemma extends_by_refl (s : State) : extends_by 0 s s.
Proof.
  repeat split; [|exists []; rewrite app_nil_r; auto].
  intros l [m w] Hl. exists w. exact Hl.
Qed.

Lemma extends_by_trans (a b : nat) (s s' s'' : State) :
  extends_by a s s' -> extends_by b s' s'' -> extends_by (a + b) s s''.
Proof.
  intros (Hi & Hl & Hh & p & Hp & Hlen) (Hi' & Hl' & Hh' & p' & Hp' & Hlen').
  repeat split; [congruence|congruence| |].
  - intros l o Ho. destruct (Hh l o Ho) as [w Hw].
    destruct (Hh' l _ Hw) as [w' Hw']. exists w'. exact Hw'.
  - exists (p ++ p'). rewrite Hp', Hp, <- app_assoc, length_app. auto.
Qed.

Lemma add_new_extends (m : BxdfModel Table) (weight : Spectrum) (s : State) :
  extends_by 1 s (add_new m weight s).
Proof.
  destruct s as [bsdf mem]. repeat split; simpl.
  - intros l [m' w] Hl. exists w. rewrite lookup_insert_ne; [exact Hl|].
    intros E. subst l.
    assert (heap mem !! fresh (dom (heap mem)) = None)
      by apply not_elem_of_dom, is_fresh.
    congruence.
  - exists [fresh (dom (heap mem))]. auto.
Qed.

Lemma set_weight_extends (l : loc) (weight : Spectrum) (s : State) :
  extends_by 1 s (AddBxdf (fst s) l, set_weight l weight (snd s)).
Proof.
  destruct s as [bsdf mem]. repeat split; simpl.
  - intros l' [m' w] Hl.
    destruct (decide (l = l')) as [->|Hne].
    + exists weight. rewrite lookup_alter_eq, Hl. reflexivity.
    + exists w. rewrite lookup_alter_ne by exact Hne. exact Hl.
  - exists [l]. auto.
Qed.

(** X7: whatever the node and the weight, [UpdateBSDF] keeps the shading
    point, reads no file, keeps every address in memory with its model, and
    appends to the aggregate as many pointers as the node counts terms,
    leaving the earlier ones in place. *)
Theorem UpdateBSDF_extends :
  forall (n : MaterialNode Intersection) (weight : Spectrum) (s : State),
    extends_by (term_count n) s (UpdateBSDF clamp n weight s).
Proof.
  fix IH 1. intros n weight s.
  destruct n as [ty out|bs ws|c|f file l|f file l|c r|c d v r e k|c d v r i x];
    try apply add_new_extends; try apply set_weight_extends.
  - apply extends_by_refl.
  - simpl. clear weight. revert ws s.
    induction bs as [|[nd v] bs IHbs]; intros [|w ws] s;
      try apply extends_by_refl.
    simpl. eapply extends_by_trans; [|apply IHbs].
    destruct nd as [sub|]; [apply IH|apply extends_by_refl].
Qed.

Lemma adds_new_terms_refl (s : State) : adds_new_terms s s.
Proof.
  split; [auto|]. exists []. rewrite app_nil_r. split; [reflexivity|].
  intros l Hl. inversion Hl.
Qed.

Lemma adds_new_terms_trans (s s' s'' : State) :
  adds_new_terms s s' -> adds_new_terms s' s'' -> adds_new_terms s s''.
Proof.
  intros (Hh & p & Hp & Hnew) (Hh' & p' & Hp' & Hnew').
  split; [auto|]. exists (p ++ p'). rewrite Hp', Hp, <- app_assoc.
  split; [reflexivity|]. intros l Hl. apply elem_of_app in Hl as [Hl|Hl].
  - destruct (Hnew l Hl) as [Hnone [o Ho]]. split; [exact Hnone|].
    exists o. apply Hh'. exact Ho.
  - destruct (Hnew' l Hl) as [Hnone Hsome]. split; [|exact Hsome].
    destruct (heap (snd s) !! l) as [o|] eqn:E; [|reflexivity].
    rewrite (Hh l o E) in Hnone. discriminate Hnone.
Qed.

Lemma add_new_adds (m : BxdfModel Table) (weight : Spectrum) (s : State) :
  adds_new_terms s (add_new m weight s).
Proof.
  destruct s as [bsdf mem].
  assert (Hfresh : heap mem !! fresh (dom (heap mem)) = None)
    by apply not_elem_of_dom, is_fresh.
  split; simpl.
  - intros l o Hl. rewrite lookup_insert_ne; [exact Hl|].
    intros E. subst l. congruence.
  - exists [fresh (dom (heap mem))]. split; [reflexivity|].
    intros l Hl. apply list_elem_of_singleton in Hl. subst l.
    split; [exact Hfresh|]. rewrite lookup_insert_eq. eauto.
Qed.

(** X8: a node under which no measured node is reached changes no term in
    memory, the weights included, and every pointer it appends is to a
    term allocated by the call. *)
Theorem UpdateBSDF_without_measured_nodes :
  forall (n : MaterialNode Intersection) (weight : Spectrum) (s : State),
    measured_free n = true ->
    adds_new_terms s (UpdateBSDF clamp n weight s).
Proof.
  fix IH 1. intros n weight s.
  destruct n as [ty out|bs ws|c|f file l|f file l|c r|c d v r e k|c d v r i x];
    intros Hfree; try discriminate Hfree; try apply add_new_adds.
  - apply adds_new_terms_refl.
  - simpl in *. clear weight. revert ws s Hfree.
    induction bs as [|[nd v] bs IHbs]; intros [|w ws] s Hfree;
      try apply adds_new_terms_refl.
    apply andb_prop in Hfree as [Hsub Hrest].
    eapply adds_new_terms_trans; [|apply IHbs; exact Hrest].
    destruct nd as [sub|]; [apply IH; exact Hsub|apply adds_new_terms_refl].
Qed.

Lemma weight_slot_value (w : Spectrum) (bsdf : Bsdf Intersection) :
  ToSpectrum (GetPropertyValue (weight_slot w) bsdf) = w.
Proof. destruct w; reflexivity. Qed.

Lemma UpdateBSDF_measured (n : MaterialNode Intersection) (l : loc)
    (weight : Spectrum) (s : State) :
  own_term n = Some l ->
  UpdateBSDF clamp n weight s = (AddBxdf (fst s) l, set_weight l weight (snd s)).
Proof. destruct n; try discriminate; intros [= ->]; reflexivity. Qed.

(** X9: the term of a Merl or Fourier node is one object.  Wired into two
    slot pairs of a layered node, the node adds the same pointer twice and
    the term ends with the weight of the second pair; used for two
    aggregates in turn, both point to the term and it ends with the second
    weight. *)
Theorem measured_term_is_shared :
  forall (n : MaterialNode Intersection) (l : loc) (b : Bxdf Table)
         (w1 w2 W : Spectrum) (bsdf1 bsdf2 : Bsdf Intersection)
         (mem : Memory Table),
    own_term n = Some l ->
    heap mem !! l = Some b ->
    let twice := LayeredBxdfNode [connected n; connected n]
                   [weight_slot w1; weight_slot w2] in
    let s := UpdateBSDF clamp twice W (bsdf1, mem) in
    let s1 := UpdateBSDF clamp n w1 (bsdf1, mem) in
    let s2 := UpdateBSDF clamp n w2 (bsdf2, snd s1) in
    let final := Some {| model := model b; m_weight := w2 |} in
    (m_bxdf (fst s) = m_bxdf bsdf1 ++ [l; l] /\ heap (snd s) !! l = final)
    /\ (m_bxdf (fst s1) = m_bxdf bsdf1 ++ [l]
        /\ m_bxdf (fst s2) = m_bxdf bsdf2 ++ [l]
        /\ heap (snd s2) !! l = final).
Proof.
  intros n l b w1 w2 W bsdf1 bsdf2 mem Hown Hb twice s s1 s2 final.
  subst s s1 s2 twice. rewrite UpdateBSDF_Layered. simpl.
  rewrite !weight_slot_value, !(UpdateBSDF_measured n l) by exact Hown.
  simpl. rewrite <- app_assoc, !lookup_alter_eq, Hb. simpl. auto.
Qed.

(** X10: in both microfacet nodes the two names are looked at apart.
    A distribution name other than [Blinn] and [Beckmann] gives GGX
    whatever the visibility name is, and a visibility name other than the
    six known ones gives the implicit term whatever the distribution name
    is; the GGX roughness is [clamp] of the resolved roughness between
    0.001 and 1 for reflection, between 0.05 and 1 for refraction. *)
Theorem microfacet_defaults :
  forall (baseColor : Slot)
         (mf_dist mf_vis : MaterialNodePropertyString (MaterialNode Intersection))
         (roughness p q : Slot) (weight : Spectrum) (s : State),
    let rough := x (GetPropertyValue roughness (fst s)) in
    let reflection :=
      new_term (MicrofacetReflectionNode baseColor mf_dist mf_vis roughness p q)
        weight s in
    let refraction :=
      new_term (MicrofacetRefractionNode baseColor mf_dist mf_vis roughness p q)
        weight s in
    (known_dist (str mf_dist) = false ->
     distribution_of reflection = Some (GGX (clamp rough milli one))
     /\ distribution_of refraction = Some (GGX (clamp rough five_cent one)))
    /\ (known_vis (str mf_vis) = false ->
        visibility_of reflection = Some VisImplicit
        /\ visibility_of refraction = Some VisImplicit).
Proof.
  intros baseColor mf_dist mf_vis roughness p q weight [bsdf mem]
    rough reflection refraction.
  subst reflection refraction. unfold new_term, distribution_of, visibility_of.
  simpl. rewrite !lookup_insert_eq. simpl. split.
  - intros Hd. unfold known_dist in Hd.
    apply orb_false_elim in Hd as [H1 H2].
    unfold select_dist. rewrite H1, H2. auto.
  - intros Hv. unfold known_vis in Hv.
    repeat (apply orb_false_elim in Hv; destruct Hv as [Hv ?]).
    unfold select_vis.
    repeat match goal with
      | H : String.eqb _ _ = false |- _ => rewrite H; clear H
      end.
    auto.
Qed.

(** *** Measured data *)

(** X11: on a Merl or a Fourier node, [PostProcess] changes nothing
    exactly when the node is marked as processed or its file name is
    empty; otherwise it is one [LoadData] of the file the node names into
    the term the node owns, and that file name is what the log gains. *)
Theorem PostProcess_loads_own_file :
  forall (n : MaterialNode Intersection) (flag : bool)
         (file : MaterialNodePropertyString (MaterialNode Intersection))
         (l : loc) (mem : Memory Table),
    n = MerlNode flag file l \/ n = FourierBxdfNode flag file l ->
    (PostProcess disk n mem = mem <-> flag = true \/ str file = EmptyString)
    /\ (flag = false -> str file <> EmptyString ->
        PostProcess disk n mem = LoadData disk l (str file) mem
        /\ loaded (PostProcess disk n mem) = loaded mem ++ [str file]).
Proof.
  intros n flag file l mem Hn.
  assert (Hne : LoadData disk l (str file) mem <> mem).
  { intros E. apply (f_equal (@loaded Table)) in E. simpl in E.
    apply (f_equal (@List.length string)) in E.
    rewrite length_app in E. simpl in E. lia. }
  assert (Hrun : PostProcess disk n mem
                 = if flag then mem
                   else if negb (empty (str file))
                        then LoadData disk l (str file) mem else mem)
    by (destruct Hn; subst n; reflexivity).
  rewrite Hrun. clear Hrun Hn.
  destruct flag; [split; [split; auto|discriminate]|].
  destruct (str file) as [|a rest] eqn:E; simpl.
  - split; [split; auto|]. intros _ H. destruct (H eq_refl).
  - split.
    + split; [intros H; destruct (Hne H)|].
      intros [H|H]; discriminate H.
    + auto.
Qed.


End Facts.

(** The Merl node of address 1 in both slot pairs of a layered node, under
    the weights 1/2 and 1/4: the term is added twice and weighs 1/4. *)
Lemma measured_term_is_shared_witness :
  let s := UpdateBSDF clamp_to
             (LayeredBxdfNode [connected merl_node; connected merl_node]
                [weight_slot unit (Spectrum.of_float half);
                 weight_slot unit (Spectrum.of_float quarter)])
             (Spectrum.of_float one)
             ({| intersect := tt; m_bxdf := [] |}, merl_memory) in
  m_bxdf (fst s) = [1%positive; 1%positive]
  /\ heap (snd s) !! 1%positive
     = Some {| model := Merl (Some tt); m_weight := Spectrum.of_float quarter |}.
Proof.
  exact (proj1 (measured_term_is_shared unit unit clamp_to merl_node 1%positive
                  {| model := Merl (Some tt); m_weight := Spectrum.of_float one |}
                  (Spectrum.of_float half) (Spectrum.of_float quarter)
                  (Spectrum.of_float one)
                  {| intersect := tt; m_bxdf := [] |}
                  {| intersect := tt; m_bxdf := [] |}
                  merl_memory eq_refl eq_refl)).
Defined.

(** A layered node over a Lambert node, called on the memory that holds
    the Merl term. *)
Lemma UpdateBSDF_without_measured_nodes_witness :
  adds_new_terms
    ({| intersect := tt; m_bxdf := [1%positive] |}, merl_memory)
    (UpdateBSDF clamp_to (one_layer (LambertNode (constant one)) half 7)
       (Spectrum.of_float one)
       ({| intersect := tt; m_bxdf := [1%positive] |}, merl_memory)).
Proof.
  apply (UpdateBSDF_without_measured_nodes unit unit clamp_to
           (one_layer (LambertNode (constant one)) half 7)).
  reflexivity.
Defined.

(** A Merl node not yet processed, named after [gold.binary], on the
    memory that holds its term: the log gains that name. *)
Lemma PostProcess_loads_own_file_witness :
  loaded (PostProcess (fun _ : string => tt)
            (MerlNode (Intersection := unit) false
               {| base := constant zero; str := "gold.binary" |} 1%positive)
            merl_memory)
  = ["gold.binary"%string].
Proof.
  refine (proj2 (proj2 (PostProcess_loads_own_file unit unit
                          (fun _ : string => tt) _ false
                          {| base := constant zero; str := "gold.binary" |}
                          1%positive merl_memory (or_introl eq_refl))
                   eq_refl _)).
  simpl. discriminate.
Defined.

(** A distribution named [Phong] beside the known visibility [Smith], at
    roughness 0, and the known distribution [Blinn] beside an empty
    visibility name. *)
Lemma microfacet_defaults_witness :
  distribution_of
    (new_term clamp_to
       (MicrofacetReflectionNode (constant one)
          {| base := constant zero; str := "Phong" |}
          {| base := constant zero; str := "Smith" |}
          (constant zero) (constant half) (constant two))
       (Spectrum.of_float one)
       ({| intersect := tt; m_bxdf := [] |}, no_memory))
  = Some (GGX milli)
  /\ visibility_of
       (new_term clamp_to
          (MicrofacetRefractionNode (constant one)
             {| base := constant zero; str := "Blinn" |}
             {| base := constant zero; str := EmptyString |}
             (constant zero) (constant half) (constant two))
          (Spectrum.of_float one)
          ({| intersect := tt; m_bxdf := [] |}, no_memory))
     = Some VisImplicit.
Proof.
  split.
  - exact (proj1 (proj1 (microfacet_defaults unit unit clamp_to (constant one)
                           {| base := constant zero; str := "Phong" |}
                           {| base := constant zero; str := "Smith" |}
                           (constant zero) (constant half) (constant two)
                           (Spectrum.of_float one)
                           ({| intersect := tt; m_bxdf := [] |}, no_memory))
                   eq_refl)).
  - exact (proj2 (proj2 (microfacet_defaults unit unit clamp_to (constant one)
                           {| base := constant zero; str := "Blinn" |}
                           {| base := constant zero; str := EmptyString |}
                           (constant zero) (constant half) (constant two)
                           (Spectrum.of_float one)
                           ({| intersect := tt; m_bxdf := [] |}, no_memory))
                   eq_refl)).
Defined.

End MaterialMore.

(** ** More on the area light and the estimator *)
Module RenderMore.
Import Float32 Render Emission RenderFacts.

(** The outputs of [sample_l] when the caller asks for them all but the
    pdf. *)
Definition no_pdf_requested : Outputs :=
  {| distance := Some one; pdfW := None;
     emissionPdf := Some one; cosAtLight := Some one |}.

(** A scene lit by the area light alone. *)
Definition area_lit : WhittedRT Vec3 Vec3 unit unit :=
  with_lights whitted [area_light].

(** Every ray leaves the shape upwards from the origin, and every ray hits
    the shape at [hit]. *)
Definition ray_up (_ : Shape Vec3 Vec3 unit) (_ : unit) (r : Ray Vec3 Vec3)
  : Ray Vec3 Vec3 * Vec3 * float :=
  ({| m_Ori := origin; m_Dir := up; m_Depth := m_Depth r;
      m_fMin := zero; m_fMax := m_fMax r |}, up, inv_two_pi).

(** A scene where every ray misses, under an environment of radiance
    1/2. *)
Definition sky : WhittedRT Vec3 Vec3 unit unit :=
  {| scene := {| GetIntersect := fun _ => None;
                 Scene_Le := fun _ => Spectrum.of_float half;
                 GetLights := [area_light; point_light];
                 GetBsdf := fun _ => tt;
                 Visibility_new := {| ray := no_ray |};
                 IsVisible := fun _ => true |};
     max_recursive_depth := 6 |}.

(** An area light of white intensity whose shape samples with pdf 1. *)
Definition lamp : AreaLight Vec3 Vec3 unit :=
  {| shape := {| Shape_sample_l := fun _ _ => (up, up, neg3 up, one);
                 Shape_Pdf := fun _ _ => one;
                 SurfaceArea := two |};
     intensity := Spectrum.of_float one |}.

(** A scene whose light samples are floats: its one delta light shines
    with the radiance its sample says. *)
Definition dimmer : Light Vec3 Vec3 float :=
  {| IsDelta := true;
     Light_sample_l := fun ip ls _ =>
       (Spectrum.of_float ls, up, one,
        {| ray := {| m_Ori := intersect ip; m_Dir := up; m_Depth := 0;
                     m_fMin := cent; m_fMax := (one - cent)%f32 |} |}) |}.

Definition dimmed : WhittedRT Vec3 Vec3 float unit :=
  {| scene := {| GetIntersect := fun _ => Some hit;
                 Scene_Le := fun _ => Spectrum.black;
                 GetLights := [dimmer];
                 GetBsdf := fun _ => tt;
                 Visibility_new := {| ray := no_ray |};
                 IsVisible := fun _ => true |};
     max_recursive_depth := 6 |}.

(** Pixel samples: the first two have the first light sample 1/2 and
    differ in all the others, the third starts with 1. *)
Definition pixel_a : PixelSample float :=
  {| light_sample := fun i => match i with O => half | S _ => one end |}.

Definition pixel_b : PixelSample float :=
  {| light_sample := fun i => match i with O => half | S _ => two end |}.

Definition pixel_c : PixelSample float :=
  {| light_sample := fun i => match i with O => one | S _ => one end |}.

Section Facts.
Set Implicit Arguments.

Variables Point Vector LightSample : Type.
Variable psub : Point -> Point -> Vector.
Variable Length : Vector -> float.
Variable vneg : Vector -> Vector.
Variables Dot SatDot : Vector -> Vector -> float.
Variable UniformHemispherePdf : float.
Variable Shape_sample_ray :
  Shape Point Vector LightSample -> LightSample -> Ray Point Vector ->
  Ray Point Vector * Vector * float.
Variable Shape_GetIntersect :
  Shape Point Vector LightSample -> Ray Point Vector ->
  option (Intersection Point Vector).
Variable Bsdf : Type.
Variable Bsdf_f : Bsdf -> Vector -> Vector -> Spectrum.

(** The outputs of the incident [sample_l] once it has passed the test on
    the pdf, for a sample of the shape at distance [len]. *)
Definition written (light : AreaLight Point Vector LightSample)
    (out : Outputs) (dir normal_ : Vector) (pdf len : float) : Outputs :=
  {| distance := (fun _ => len) <$> distance out;
     pdfW := (fun _ => pdf) <$> pdfW out;
     emissionPdf :=
       (fun _ => UniformHemispherePdf / SurfaceArea (shape light))%f32
         <$> emissionPdf out;
     cosAtLight := (fun _ => Dot (vneg dir) normal_) <$> cosAtLight out |}.

(** The shadow ray from [p] towards the light along [dir], [len] away. *)
Definition shadow_ray (p : Point) (dir : Vector) (len : float)
  : Ray Point Vector :=
  {| m_Ori := p; m_Dir := dir; m_Depth := 0;
     m_fMin := cent; m_fMax := (len - cent)%f32 |}.

Unset Implicit Arguments.

(** *** [AreaLight::sample_l] *)

(** X13: the test on the pdf is made only when the caller asks for the
    pdf.  When [pdfW] is null, or the pdf is not zero, [sample_l] returns
    the light's intensity, stores the distance, the cosine at the light and
    the emission pdf through the pointers that are not null, and aims the
    tester from the shaded point along the sampled direction, 0.01 from
    either end. *)
Theorem sample_l_no_early_return :
  forall (light : AreaLight Point Vector LightSample)
         (ip : Intersection Point Vector) (ls : LightSample)
         (dirToLight : Vector) (out : Outputs)
         (visibility : Visibility Point Vector)
         (ps : Point) (dir normal_ : Vector) (pdf : float),
    Shape_sample_l (shape light) ls (intersect ip) = (ps, dir, normal_, pdf) ->
    pdfW out = None \/ (pdf ==? zero)%f32 = false ->
    sample_l psub Length vneg Dot UniformHemispherePdf
      light ip ls dirToLight out visibility
    = (intensity light, dir,
       written light out dir normal_ pdf (Length (psub ps (intersect ip))),
       {| ray := shadow_ray (intersect ip) dir
                   (Length (psub ps (intersect ip))) |}).
Proof.
  intros light ip ls dirToLight out visibility ps dir normal_ pdf Hshape Hpdf.
  unfold sample_l. rewrite Hshape. simpl.
  destruct (pdfW out) as [p0|] eqn:Hp; simpl.
  - destruct Hpdf as [Hpdf|Hpdf]; [discriminate Hpdf|]. rewrite Hpdf.
    unfold written. rewrite Hp. reflexivity.
  - unfold written. rewrite Hp. reflexivity.
Qed.

(** *** The pdfs of the area light agree *)

(** X14: the three methods report the same densities.  When the incident
    [sample_l] passes its test on the pdf ([pdfW] null or the pdf not
    zero) and is asked for the emission pdf, and [Le] sees the light from
    its front ([SatDot] not zero), the emission pdf [sample_l] stores is
    the one [Le] stores; the area pdf [Le] stores is the one the
    ray-sampling [sample_l] stores; and the three return the light's
    intensity. *)
Theorem area_light_pdfs_agree :
  forall (light : AreaLight Point Vector LightSample)
         (ip at_light : Intersection Point Vector) (ls : LightSample)
         (dirToLight wo : Vector) (out : Outputs)
         (visibility : Visibility Point Vector)
         (r : Ray Point Vector) (b c d e f : float)
         (ps : Point) (dir normal_ : Vector) (pdf : float),
    Shape_sample_l (shape light) ls (intersect ip) = (ps, dir, normal_, pdf) ->
    pdfW out = None \/ (pdf ==? zero)%f32 = false ->
    is_Some (emissionPdf out) ->
    (SatDot wo (normal at_light) ==? zero)%f32 = false ->
    let sampled := sample_l psub Length vneg Dot UniformHemispherePdf
                     light ip ls dirToLight out visibility in
    let emitted := Le SatDot UniformHemispherePdf light at_light wo
                     (Some b) (Some c) in
    let shot := sample_l_ray SatDot Shape_sample_ray light ls r
                  (Some d) (Some e) (Some f) in
    emissionPdf sampled.1.2 = emitted.2
    /\ shot.1.2 = emitted.1.2
    /\ sampled.1.1.1 = intensity light
    /\ emitted.1.1 = intensity light
    /\ shot.1.1.1.1 = intensity light.
Proof.
  intros light ip at_light ls dirToLight wo out visibility r b c d e f
    ps dir normal_ pdf Hshape Hpdf [a Ha] Hcos sampled emitted shot.
  subst sampled emitted shot. unfold sample_l, Le, sample_l_ray.
  rewrite Hcos, Hshape.
  destruct (Shape_sample_ray (shape light) ls r) as [[r' n'] pdf'].
  assert (Htest : match (fun _ : float => pdf) <$> pdfW out with
                  | Some v => (v ==? zero)%f32
                  | None => false
                  end = false).
  { destruct (pdfW out) as [p0|]; simpl; [|reflexivity].
    destruct Hpdf as [Hpdf|Hpdf]; [discriminate Hpdf|exact Hpdf]. }
  simpl. rewrite Htest. simpl. rewrite Ha. simpl. auto.
Qed.

(** *** [AreaLight::Le] along a ray *)

(** X15: [Le] along a ray returns whether the ray hits the shape.  On a
    miss, and on a hit when the [intersect] pointer is null, the radiance
    is left as it was; on a hit with a pointer it is the light's intensity
    when the reversed ray direction has a positive [SatDot] with the normal
    at the hit, and zero otherwise. *)
Theorem Le_ray_cases :
  forall (light : AreaLight Point Vector LightSample) (r : Ray Point Vector)
         (ptr : option (Intersection Point Vector)) (radiance : Spectrum),
    let res := Le_ray vneg SatDot UniformHemispherePdf Shape_GetIntersect
                 light r ptr radiance in
    match Shape_GetIntersect (shape light) r, ptr with
    | None, _ => res = (false, ptr, radiance)
    | Some h, None => res = (true, None, radiance)
    | Some h, Some _ =>
        res = (true, Some h,
               if (SatDot (vneg (m_Dir r)) (normal h) ==? zero)%f32
               then Spectrum.of_float zero else intensity light)
    end.
Proof.
  intros light r ptr radiance res. subst res. unfold Le_ray, Le.
  destruct (Shape_GetIntersect (shape light) r) as [h|]; [|reflexivity].
  destruct ptr as [h0|]; [|reflexivity].
  destruct (SatDot (vneg (m_Dir r)) (normal h) ==? zero)%f32; reflexivity.
Qed.

(** *** [WhittedRT::Li] *)

(** X16: a ray that is not beyond the recursion limit, a ray at the limit
    included, and that hits nothing gets the scene's radiance along it, the
    lights not being looked at. *)
Theorem Li_miss :
  forall (w : WhittedRT Point Vector LightSample Bsdf) (r : Ray Point Vector)
         (ps : PixelSample LightSample),
    m_Depth r <= max_recursive_depth w ->
    GetIntersect (scene w) r = None ->
    Li vneg SatDot Bsdf_f w r ps = Scene_Le (scene w) r
    /\ forall lights,
         Li vneg SatDot Bsdf_f (with_lights w lights) r ps = Scene_Le (scene w) r.
Proof.
  intros w r ps Hdepth Hmiss.
  assert (Hle : (m_Depth r >? max_recursive_depth w) = false)
    by (rewrite Z.gtb_ltb; apply Z.ltb_ge; lia).
  unfold Li. simpl. rewrite Hle, Hmiss. auto.
Qed.

(** X17: when none of the scene's lights is a delta light, every ray that
    hits the scene gets black: area lights alone light nothing. *)
Theorem Li_without_delta_lights :
  forall (w : WhittedRT Point Vector LightSample Bsdf) (r : Ray Point Vector)
         (ps : PixelSample LightSample) (ip : Intersection Point Vector),
    GetIntersect (scene w) r = Some ip ->
    (forall light, light ∈ GetLights (scene w) -> IsDelta light = false) ->
    Li vneg SatDot Bsdf_f w r ps = Spectrum.black.
Proof.
  intros w r ps ip Hhit Hnone. unfold Li. rewrite Hhit.
  destruct (m_Depth r >? max_recursive_depth w); [reflexivity|].
  rewrite Li_lights_terms.
  replace (List.filter (@IsDelta _ _ _) (GetLights (scene w))) with (@nil (Light Point Vector LightSample)); [reflexivity|].
  induction (GetLights (scene w)) as [|light lights IH]; [reflexivity|].
  simpl. rewrite (Hnone light) by left.
  apply IH. intros l Hl. apply Hnone. right. exact Hl.
Qed.

Lemma Li_lights_first_sample (w : WhittedRT Point Vector LightSample Bsdf)
    r ps ps' ip bsdf lights t visibility :
  light_sample ps 0%nat = light_sample ps' 0%nat ->
  Li_lights vneg SatDot Bsdf_f w r ps ip bsdf lights t visibility
  = Li_lights vneg SatDot Bsdf_f w r ps' ip bsdf lights t visibility.
Proof.
  intros E. revert t visibility.
  induction lights as [|light lights IH]; intros t visibility; simpl;
    [reflexivity|].
  rewrite E. destruct (IsDelta light); [|apply IH].
  destruct (Light_sample_l light ip (light_sample ps' 0%nat) visibility)
    as [[[ld lightDir] pdf] visibility'].
  destruct (Spectrum.IsBlack ld); [apply IH|].
  destruct (Spectrum.IsBlack _); [apply IH|].
  destruct (IsVisible (scene w) visibility'); apply IH.
Qed.

(** X18: of the light samples of a pixel sample, [Li] reads
    [light_sample[0]] alone: two pixel samples whose light samples agree at
    index 0 give the same radiance, however the samples at the other
    indices differ. *)
Theorem Li_uses_first_light_sample :
  forall (w : WhittedRT Point Vector LightSample Bsdf) (r : Ray Point Vector)
         (ps ps' : PixelSample LightSample),
    light_sample ps 0%nat = light_sample ps' 0%nat ->
    Li vneg SatDot Bsdf_f w r ps = Li vneg SatDot Bsdf_f w r ps'.
Proof.
  intros w r ps ps' E. unfold Li.
  destruct (m_Depth r >? max_recursive_depth w); [reflexivity|].
  destruct (GetIntersect (scene w) r) as [ip|]; [|reflexivity].
  apply Li_lights_first_sample. exact E.
Qed.

End Facts.

(** The red light sampled without asking for the pdf: the shape's pdf is
    zero, and the light's intensity comes back all the same. *)
Lemma sample_l_no_early_return_witness :
  (sample_l sub3 length3 neg3 dot3 inv_two_pi red_light hit tt origin
     no_pdf_requested {| ray := no_ray |}).1.1.1 = red.
Proof.
  exact (f_equal (fun res => res.1.1.1)
           (sample_l_no_early_return Vec3 Vec3 unit sub3 length3 neg3 dot3
              inv_two_pi red_light hit tt origin no_pdf_requested
              {| ray := no_ray |} up up (neg3 up) zero eq_refl
              (or_introl eq_refl))).
Defined.

(** The lamp sampled with every output asked for, its pdf being 1, and
    seen from above its surface. *)
Lemma area_light_pdfs_agree_witness :
  emissionPdf
    (sample_l sub3 length3 neg3 dot3 inv_two_pi lamp hit tt origin
       all_requested {| ray := no_ray |}).1.2
  = (Le satdot3 inv_two_pi lamp hit up (Some zero) (Some zero)).2.
Proof.
  exact (proj1 (area_light_pdfs_agree Vec3 Vec3 unit sub3 length3 neg3
                  dot3 satdot3 inv_two_pi ray_up lamp hit hit tt
                  origin up all_requested {| ray := no_ray |} no_ray
                  zero zero zero zero zero up up (neg3 up) one
                  eq_refl (or_intror eq_refl) (ex_intro _ one eq_refl)
                  eq_refl)).
Defined.

(** A ray at the recursion limit under the sky. *)
Lemma Li_miss_witness :
  Li neg3 satdot3 half_reflectance sky (camera_ray 6) pixel
  = Spectrum.of_float half.
Proof.
  refine (proj1 (Li_miss Vec3 Vec3 unit neg3 satdot3 unit half_reflectance
                   sky (camera_ray 6) pixel _ eq_refl)).
  simpl. lia.
Defined.

(** The scene lit by the area light alone. *)
Lemma Li_without_delta_lights_witness :
  Li neg3 satdot3 half_reflectance area_lit (camera_ray 0) pixel
  = Spectrum.black.
Proof.
  refine (Li_without_delta_lights Vec3 Vec3 unit neg3 satdot3 unit
            half_reflectance area_lit (camera_ray 0) pixel hit eq_refl _).
  intros light Hin. apply list_elem_of_singleton in Hin. subst light.
  reflexivity.
Defined.

(** Under the dimmer, two pixel samples that differ from the second light
    sample on. *)
Lemma Li_uses_first_light_sample_witness :
  Li neg3 satdot3 half_reflectance dimmed (camera_ray 0) pixel_a
  = Li neg3 satdot3 half_reflectance dimmed (camera_ray 0) pixel_b.
Proof.
  exact (Li_uses_first_light_sample Vec3 Vec3 float neg3 satdot3 unit
           half_reflectance dimmed (camera_ray 0) pixel_a pixel_b eq_refl).
Defined.

(** The first light sample does reach the radiance: under the dimmer it is
    1/4 for a first sample of 1/2 and 1/2 for a first sample of 1. *)
Lemma Li_reads_first_light_sample :
  Li neg3 satdot3 half_reflectance dimmed (camera_ray 0) pixel_a
  = Spectrum.of_float quarter
  /\ Li neg3 satdot3 half_reflectance dimmed (camera_ray 0) pixel_c
     = Spectrum.of_float half.
Proof. split; vm_compute; reflexivity. Qed.

End RenderMore.
